(** * Multi-document chat assistant ([main.py]): a shallow embedding

    The script is a Streamlit page.  Every user interaction re-runs [main]
    from the top against the per-session dictionary [st.session_state];
    the uploaded files are written to temporary storage, loaded, split
    into chunks, indexed, and a conversational chain answers the question
    typed into the form.

    Python strings are sequences of code points, integers are unbounded
    ([Z]), exceptions are an explicit [Raise] result, and the mutable
    world of a run (session dictionary, temporary files, what was rendered
    or called) is threaded through a state-and-exception monad whose
    state survives a raised exception, as a Python object store does. *)

From Stdlib Require Import ZArith NArith QArith Ascii String List Lia.
From stdpp Require Import base option list strings gmap pretty.

Local Open Scope Z_scope.

(** ** Python values *)

(** A Python [str]: a sequence of Unicode code points; [len] counts them. *)
Abbreviation text := (list N).

(** A Python [bytes] object. *)
Abbreviation bytes := (list Byte.byte).

(** A literal of the script, written as a Rocq string of ASCII characters. *)
Definition str (s : string) : text :=
  map N_of_ascii (list_ascii_of_string s).

Definition len {A} (l : list A) : Z := Z.of_nat (length l).

(** Truthiness of a [str]: the empty string is falsy. *)
Definition truthy_str (s : text) : bool :=
  match s with [] => false | _ :: _ => true end.

Definition text_eqb (a b : text) : bool := bool_decide (a = b).

(** Exceptions the modelled code can raise.  [Collaborator] stands for any
    failure raised inside a third-party call (parser, index, model). *)
Inductive exn :=
| KeyError (key : string)
| IndexError
| ValueError
| FileNotFoundError (path : nat)
| Collaborator (code : nat).

Inductive result (A : Type) :=
| Ok (a : A)
| Raise (e : exn).
Arguments Ok {A} a.
Arguments Raise {A} e.

Definition rbind {A B} (r : result A) (k : A -> result B) : result B :=
  match r with
  | Ok a => k a
  | Raise e => Raise e
  end.

(** A [Document] of the loader library: text plus a metadata dictionary
    (kept as an association list, in insertion order). *)
Inductive meta_value :=
| MStr (s : text)
| MInt (z : Z).

Record Document := {
  page_content : text;
  metadata : list (text * meta_value)
}.

(** ** [os.path.splitext] *)

(** [main] takes the extension of an upload with [os.path.splitext];
    this is the function of the Python standard library (POSIX path
    rules): the extension starts at the last dot of the last path
    component, leading dots of that component not counting. *)
Module os_path.

Definition sep : N := 47.     (* "/" *)
Definition extsep : N := 46.  (* "." *)

(** [p.rfind(c)], with [-1] when [c] does not occur. *)
Fixpoint rfind_from (c : N) (p : text) (i : Z) (found : Z) : Z :=
  match p with
  | [] => found
  | x :: p' => rfind_from c p' (i + 1) (if N.eqb x c then i else found)
  end.

Definition rfind (c : N) (p : text) : Z := rfind_from c p 0 (-1).

(** The [while filenameIndex < dotIndex] loop: is there a character
    other than a dot among the [n] characters of [l]? *)
Fixpoint has_non_dot (l : text) (n : nat) : bool :=
  match n, l with
  | O, _ => false
  | S _, [] => false
  | S n', x :: l' => if N.eqb x extsep then has_non_dot l' n' else true
  end.

Definition splitext (p : text) : text * text :=
  let sepIndex := rfind sep p in
  let dotIndex := rfind extsep p in
  if sepIndex <? dotIndex then
    let filenameIndex := sepIndex + 1 in
    if has_non_dot (drop (Z.to_nat filenameIndex) p)
                   (Z.to_nat (dotIndex - filenameIndex))
    then (take (Z.to_nat dotIndex) p, drop (Z.to_nat dotIndex) p)
    else (p, [])
  else (p, []).

End os_path.

(** ** The character text splitter *)

(** Modelled from the spec: the Chunker.  [main] only constructs
    [CharacterTextSplitter(separator="\n", chunk_size=1000,
    chunk_overlap=100, length_function=len)] and calls
    [split_documents] on it; the splitter itself is the text-splitting
    library's and is not part of the repository.  Section 4.2: split on
    the configured separator first, then pack the pieces into windows
    of the configured maximum size with the configured overlap between
    consecutive windows, measured in characters.  The definitions below
    follow the library's [split_text], [_split_text_with_regex],
    [_merge_splits] and [_join_docs]: a piece is never cut, the library
    only logs a warning when a window is longer than the chunk size. *)
Module TextSplitter.

Record config := {
  separator : text;
  chunk_size : Z;
  chunk_overlap : Z
}.

(** The constructor refuses an overlap larger than the chunk size. *)
Definition CharacterTextSplitter (sep : text) (size overlap : Z)
  : result config :=
  if size <? overlap then Raise ValueError
  else Ok {| separator := sep; chunk_size := size; chunk_overlap := overlap |}.

(** [str.isspace] on one code point. *)
Definition isspace (c : N) : bool :=
  ((9 <=? c) && (c <=? 13) || (28 <=? c) && (c <=? 32)
   || (c =? 133) || (c =? 160) || (c =? 5760)
   || (8192 <=? c) && (c <=? 8202)
   || (c =? 8232) || (c =? 8233) || (c =? 8239) || (c =? 8287)
   || (c =? 12288))%N.

Fixpoint lstrip (s : text) : text :=
  match s with
  | [] => []
  | c :: s' => if isspace c then lstrip s' else s
  end.

Definition rstrip (s : text) : text := rev (lstrip (rev s)).

Definition strip (s : text) : text := rstrip (lstrip s).

(** [separator.join(docs)] *)
Fixpoint join (sep : text) (docs : list text) : text :=
  match docs with
  | [] => []
  | d :: ds =>
      match ds with
      | [] => d
      | _ :: _ => d ++ sep ++ join sep ds
      end
  end.

Fixpoint startswith (pre s : text) : bool :=
  match pre, s with
  | [], _ => true
  | _ :: _, [] => false
  | a :: pre', b :: s' => N.eqb a b && startswith pre' s'
  end.

(** [re.split] for an escaped (literal) non-empty pattern: leftmost,
    non-overlapping occurrences.  [skip] counts the characters of a
    matched separator still to be consumed; [cur] is the piece being
    read, most recent character first. *)
Fixpoint re_split_from (sep : text) (skip : nat) (cur : text) (s : text)
  : list text :=
  match s with
  | [] => [rev cur]
  | c :: s' =>
      match skip with
      | S k => re_split_from sep k cur s'
      | O =>
          if startswith sep s
          then rev cur :: re_split_from sep (length sep - 1) [] s'
          else re_split_from sep 0 (c :: cur) s'
      end
  end.

Definition re_split (sep : text) (s : text) : list text :=
  re_split_from sep 0 [] s.

(** [_split_text_with_regex] with [keep_separator=False]. *)
Definition _split_text_with_regex (s : text) (sep : text) : list text :=
  let splits :=
    if truthy_str sep then re_split sep s else map (fun c => [c]) s in
  filter (fun p => p <> []) splits.

Definition _join_docs (docs : list text) (sep : text) : option text :=
  let t := strip (join sep docs) in
  match t with
  | [] => None
  | _ :: _ => Some t
  end.

(** The local variables of [_merge_splits]. *)
Record merge_state := {
  docs : list text;
  current_doc : list text;
  total : Z
}.

Definition sep_if (b : bool) (separator_len : Z) : Z :=
  if b then separator_len else 0.

(** The guard of the [while] loop that drops pieces from the front of
    the current window. *)
Definition keep_popping (cfg : config) (separator_len _len : Z)
           (cur : list text) (tot : Z) : bool :=
  (chunk_overlap cfg <? tot)
  || ((chunk_size cfg <? tot + _len + sep_if (0 <? len cur) separator_len)
      && (0 <? tot)).

(** The [while] loop; [current_doc[0]] on an empty list raises. *)
Fixpoint pop_front (cfg : config) (separator_len _len : Z)
         (cur : list text) (tot : Z) : result (list text * Z) :=
  match cur with
  | [] =>
      if keep_popping cfg separator_len _len [] tot
      then Raise IndexError
      else Ok ([], tot)
  | x :: rest =>
      if keep_popping cfg separator_len _len cur tot
      then pop_front cfg separator_len _len rest
             (tot - (len x + sep_if (1 <? len cur) separator_len))
      else Ok (cur, tot)
  end.

Definition append_doc (ds : list text) (doc : option text) : list text :=
  match doc with
  | Some t => ds ++ [t]
  | None => ds
  end.

(** One iteration of [for d in splits].  (The warning logged when
    [total] exceeds the chunk size has no effect on the result and is
    left out.) *)
Definition merge_step (cfg : config) (sep : text) (st : merge_state)
           (d : text) : result merge_state :=
  let separator_len := len sep in
  let _len := len d in
  rbind
    (if chunk_size cfg
        <? total st + _len + sep_if (0 <? len (current_doc st)) separator_len
     then
       if 0 <? len (current_doc st) then
         let ds := append_doc (docs st) (_join_docs (current_doc st) sep) in
         rbind (pop_front cfg separator_len _len (current_doc st) (total st))
               (fun '(cur, tot) =>
                  Ok {| docs := ds; current_doc := cur; total := tot |})
       else Ok st
     else Ok st)
    (fun st1 =>
       let cur := current_doc st1 ++ [d] in
       Ok {| docs := docs st1;
             current_doc := cur;
             total := total st1 + (_len + sep_if (1 <? len cur) separator_len) |}).

Fixpoint merge_loop (cfg : config) (sep : text) (st : merge_state)
         (splits : list text) : result merge_state :=
  match splits with
  | [] => Ok st
  | d :: splits' =>
      rbind (merge_step cfg sep st d)
            (fun st' => merge_loop cfg sep st' splits')
  end.

Definition _merge_splits (cfg : config) (splits : list text) (sep : text)
  : result (list text) :=
  rbind (merge_loop cfg sep
           {| docs := []; current_doc := []; total := 0 |} splits)
        (fun st => Ok (append_doc (docs st) (_join_docs (current_doc st) sep))).

Definition split_text (cfg : config) (s : text) : result (list text) :=
  _merge_splits cfg (_split_text_with_regex s (separator cfg)) (separator cfg).

(** [create_documents]: every chunk of a text carries a copy of the
    metadata of the document it was cut from. *)
Fixpoint create_documents (cfg : config)
         (inputs : list (text * list (text * meta_value)))
  : result (list Document) :=
  match inputs with
  | [] => Ok []
  | (s, md) :: rest =>
      rbind (split_text cfg s) (fun chunks =>
      rbind (create_documents cfg rest) (fun more =>
      Ok (map (fun c => {| page_content := c; metadata := md |}) chunks
            ++ more)))
  end.

Definition split_documents (cfg : config) (documents : list Document)
  : result (list Document) :=
  create_documents cfg
    (map (fun d => (page_content d, metadata d)) documents).

End TextSplitter.

(** The one-character string ["\n"]. *)
Definition newline : text := [10%N].

(** The splitter [main] obtains: separator ["\n"], size 1000, overlap 100. *)
Definition main_splitter : TextSplitter.config :=
  {| TextSplitter.separator := newline;
     TextSplitter.chunk_size := 1000;
     TextSplitter.chunk_overlap := 100 |}.

Definition doc_of (s : text) : Document :=
  {| page_content := s; metadata := [] |}.

(** ** Predicates used in the statements *)

(** The loop invariant of [_merge_splits]: [total] is the width of the
    current window, the window holds non-empty pieces, and it is within
    the chunk size unless it holds at most one piece. *)
Record merge_inv (cfg : TextSplitter.config) (sep : text)
       (good : text -> Prop) (st : TextSplitter.merge_state) : Prop := {
  inv_total :
    TextSplitter.total st
    = len (TextSplitter.join sep (TextSplitter.current_doc st));
  inv_pieces : Forall (fun p => p <> []) (TextSplitter.current_doc st);
  inv_window :
    TextSplitter.total st <= TextSplitter.chunk_size cfg
    \/ (length (TextSplitter.current_doc st) <= 1)%nat;
  inv_docs : Forall good (TextSplitter.docs st)
}.

(** A chunk is fine when it fits, or is one stripped piece. *)
Definition fits_or_single (cfg : TextSplitter.config) (pieces : list text)
           (c : text) : Prop :=
  len c <= TextSplitter.chunk_size cfg
  \/ exists p, In p pieces /\ c = TextSplitter.strip p.

(** ** The world of a run *)

(** [st.session_state]: a key is absent until [initialize_session_state]
    binds it.  ['hf_api_key'] is bound to [None] or to a string. *)
Record SessionState := {
  history : option (list (text * text));
  generated : option (list text);
  past : option (list text);
  hf_api_key : option (option text)
}.

Definition empty_session : SessionState :=
  {| history := None; generated := None; past := None; hf_api_key := None |}.

Inductive loader_kind := PyPDFLoader | Docx2txtLoader | TextLoader.

(** The language-model handle built by [HuggingFaceHub(...)]. *)
Record LLM := {
  repo_id : text;
  temperature : Q;
  max_length : Z;
  huggingfacehub_api_token : option text
}.

(** What a run does that can be observed from outside the script. *)
Inductive event :=
| st_title (t : text)
| st_text_input (label : text)
| st_warning (msg : text)
| st_sidebar_title (t : text)
| st_sidebar_file_uploader
| st_form (key : text)
| st_spinner (msg : text)
| message (body : text) (is_user : bool) (key : text)
| tempfile_written (path : nat)
| loader_load (kind : loader_kind) (path : nat)
| os_remove (path : nat)
| split_documents_called
| index_built
| chain_created
| chain_called (model : LLM) (question : text).

Record World := {
  session_state : SessionState;
  tmp : gmap nat bytes;      (* temporary storage: path to content *)
  log : list event
}.

(** State and exceptions; the state reached when an exception is raised
    is kept. *)
Definition M (A : Type) : Type := World -> result A * World.

Definition ret {A} (a : A) : M A := fun w => (Ok a, w).

Definition raise {A} (e : exn) : M A := fun w => (Raise e, w).

Definition bind {A B} (m : M A) (k : A -> M B) : M B :=
  fun w =>
    match m w with
    | (Ok a, w') => k a w'
    | (Raise e, w') => (Raise e, w')
    end.

Notation "'let*' x ':=' m 'in' k" := (bind m (fun x => k))
  (at level 10, x name, m at level 100, k at level 200).
Notation "m ';;' k" := (bind m (fun _ => k))
  (at level 100, k at level 200, right associativity).

Definition lift {A} (r : result A) : M A := fun w => (r, w).

Definition emit (e : event) : M unit :=
  fun w => (Ok tt, {| session_state := session_state w;
                      tmp := tmp w;
                      log := log w ++ [e] |}).

Definition get_session : M SessionState := fun w => (Ok (session_state w), w).

Definition modify_session (f : SessionState -> SessionState) : M unit :=
  fun w => (Ok tt, {| session_state := f (session_state w);
                      tmp := tmp w;
                      log := log w |}).

(** [st.session_state[key]] for a key that may be absent. *)
Definition getitem {A} (key : string) (field : SessionState -> option A) : M A :=
  let* s := get_session in
  match field s with
  | Some v => ret v
  | None => raise (KeyError key)
  end.

Definition set_history (v : list (text * text)) (s : SessionState) :=
  {| history := Some v; generated := generated s; past := past s;
     hf_api_key := hf_api_key s |}.
Definition set_generated (v : list text) (s : SessionState) :=
  {| history := history s; generated := Some v; past := past s;
     hf_api_key := hf_api_key s |}.
Definition set_past (v : list text) (s : SessionState) :=
  {| history := history s; generated := generated s; past := Some v;
     hf_api_key := hf_api_key s |}.
Definition set_hf_api_key (v : option text) (s : SessionState) :=
  {| history := history s; generated := generated s; past := past s;
     hf_api_key := Some v |}.

(** A list object reached through a name: reading and [append] act on
    the one object, whoever holds the name. *)
Record list_object (A : Type) := {
  items : M (list A);
  append : A -> M unit
}.
Arguments items {A} _.
Arguments append {A} _ _.

Definition history_object : list_object (text * text) :=
  {| items := getitem "history" history;
     append := fun x =>
       let* h := getitem "history" history in
       modify_session (set_history (h ++ [x])) |}.

Definition generated_object : list_object text :=
  {| items := getitem "generated" generated;
     append := fun x =>
       let* g := getitem "generated" generated in
       modify_session (set_generated (g ++ [x])) |}.

Definition past_object : list_object text :=
  {| items := getitem "past" past;
     append := fun x =>
       let* p := getitem "past" past in
       modify_session (set_past (p ++ [x])) |}.

(** Evaluating [st.session_state[key]] to the list object bound to it. *)
Definition getitem_list {A} (key : string) (field : SessionState -> option (list A))
           (obj : list_object A) : M (list_object A) :=
  getitem key field ;; ret obj.

(** [l[i]] *)
Definition index {A} (l : list A) (i : nat) : M A :=
  match l !! i with
  | Some x => ret x
  | None => raise IndexError
  end.

(** Temporary storage. *)
Definition NamedTemporaryFile_write (data : bytes) : M nat :=
  fun w =>
    let path := fresh (dom (tmp w)) in
    (Ok path, {| session_state := session_state w;
                 tmp := <[path := data]> (tmp w);
                 log := log w ++ [tempfile_written path] |}).

Definition os_remove_file (path : nat) : M unit :=
  fun w =>
    match tmp w !! path with
    | Some _ =>
        (Ok tt, {| session_state := session_state w;
                   tmp := delete path (tmp w);
                   log := log w ++ [os_remove path] |})
    | None => (Raise (FileNotFoundError path), w)
    end.

Definition read_file (path : nat) : M bytes :=
  fun w =>
    match tmp w !! path with
    | Some data => (Ok data, w)
    | None => (Raise (FileNotFoundError path), w)
    end.

(** What the user did on the page before this run. *)
Record UploadedFile := {
  name : text;
  content : bytes
}.

Record Inputs := {
  token_input : text;             (* the password field *)
  uploaded_files : list UploadedFile;
  submit_button : bool;
  user_input : text               (* the question field *)
}.

(** ** The script *)

Section Script.

(** Third-party collaborators: the document parsers, the embedding
    and index build, the model-hub client and the chain. *)
Variable parse : loader_kind -> nat -> bytes -> result (list Document).
Variable VectorStore : Type.
Variable FAISS_from_documents : list Document -> result VectorStore.
Variable hub_validate : text -> option text -> result unit.

Record Retriever := {
  vectorstore : VectorStore;
  search_k : Z
}.

Record ConversationBufferMemory := {
  memory_key : text;
  return_messages : bool
}.

Record Chain := {
  llm : LLM;
  chain_type : text;
  retriever : Retriever;
  memory : ConversationBufferMemory
}.

(** Calling the chain with a question and the chat history; the value
    is [result["answer"]]. *)
Variable chain_answer : Chain -> text -> list (text * text) -> result text.

Definition initialize_session_state : M unit :=
  let* s := get_session in
  match history s with
  | Some _ => ret tt
  | None => modify_session (set_history [])
  end ;;
  let* s := get_session in
  match generated s with
  | Some _ => ret tt
  | None =>
      modify_session
        (set_generated [str "Hello! Ask me anything about your documents."])
  end ;;
  let* s := get_session in
  match past s with
  | Some _ => ret tt
  | None => modify_session (set_past [str "Hey! " ++ [128075%N]])
  end ;;
  let* s := get_session in
  match hf_api_key s with
  | Some _ => ret tt
  | None => modify_session (set_hf_api_key None)
  end.

Definition conversation_chat (query : text) (chain : Chain)
           (history : list_object (text * text)) : M text :=
  let* h := items history in
  emit (chain_called (llm chain) query) ;;
  let* answer := lift (chain_answer chain query h) in
  append history (query, answer) ;;
  ret answer.

(** The [for i in range(len(...))] loop of the transcript. *)
Fixpoint render_messages (indices : list nat) : M unit :=
  match indices with
  | [] => ret tt
  | i :: rest =>
      let* p := getitem "past" past in
      let* q := index p i in
      emit (message q true (str (pretty i) ++ str "_user")) ;;
      let* g := getitem "generated" generated in
      let* a := index g i in
      emit (message a false (str (pretty i))) ;;
      render_messages rest
  end.

Definition render_transcript : M unit :=
  let* g := getitem "generated" generated in
  match g with
  | [] => ret tt
  | _ :: _ => render_messages (seq 0 (length g))
  end.

Definition display_chat_history (chain : Chain) (inp : Inputs) : M unit :=
  emit (st_form (str "my_form")) ;;
  (if submit_button inp && truthy_str (user_input inp) then
     emit (st_spinner (str "Generating response...")) ;;
     let* h := getitem_list "history" history history_object in
     let* output := conversation_chat (user_input inp) chain h in
     let* p := getitem_list "past" past past_object in
     append p (user_input inp) ;;
     let* g := getitem_list "generated" generated generated_object in
     append g output
   else ret tt) ;;
  render_transcript.

Definition HuggingFaceHub (repo : text) (temp : Q) (maxlen : Z)
           (token : option text) : result LLM :=
  rbind (hub_validate repo token) (fun _ =>
  Ok {| repo_id := repo; temperature := temp; max_length := maxlen;
        huggingfacehub_api_token := token |}).

Definition create_conversational_chain (vector_store : VectorStore)
           (key : option text) : result Chain :=
  rbind (HuggingFaceHub (str "google/flan-t5-small") (1 # 100)%Q 500 key)
    (fun retriever_llm =>
  rbind (HuggingFaceHub (str "google/flan-t5-large") (1 # 100)%Q 500 key)
    (fun generator_llm =>
  let memory := {| memory_key := str "chat_history"; return_messages := true |} in
  Ok {| llm := generator_llm;
        chain_type := str "stuff";
        retriever := {| vectorstore := vector_store; search_k := 3 |};
        memory := memory |})).

Definition choose_loader (file_extension : text) : option loader_kind :=
  if text_eqb file_extension (str ".pdf") then Some PyPDFLoader
  else if text_eqb file_extension (str ".docx")
          || text_eqb file_extension (str ".doc") then Some Docx2txtLoader
  else if text_eqb file_extension (str ".txt") then Some TextLoader
  else None.

(** [loader.load()]: the parser reads the file behind the path. *)
Definition load (kind : loader_kind) (path : nat) : M (list Document) :=
  emit (loader_load kind path) ;;
  let* data := read_file path in
  lift (parse kind path data).

(** The body of [for file in uploaded_files]; [text] is the list being
    extended. *)
Definition ingest_file (file : UploadedFile) (text : list Document)
  : M (list Document) :=
  let file_extension := snd (os_path.splitext (name file)) in
  let* temp_file_path := NamedTemporaryFile_write (content file) in
  match choose_loader file_extension with
  | Some loader =>
      let* loaded := load loader temp_file_path in
      os_remove_file temp_file_path ;;
      ret (text ++ loaded)
  | None => ret text
  end.

Fixpoint ingest_files (files : list UploadedFile) (text : list Document)
  : M (list Document) :=
  match files with
  | [] => ret text
  | file :: rest =>
      let* text' := ingest_file file text in
      ingest_files rest text'
  end.

Definition truthy_key (k : option text) : bool :=
  match k with
  | Some s => truthy_str s
  | None => false
  end.

(** [main] once a credential is at hand (lines 93 to 128). *)
Definition process_documents (inp : Inputs) : M unit :=
  emit (st_sidebar_title (str "Document Processing")) ;;
  emit st_sidebar_file_uploader ;;
  match uploaded_files inp with
  | [] => ret tt
  | _ :: _ =>
      let* text := ingest_files (uploaded_files inp) [] in
      let* text_splitter :=
        lift (TextSplitter.CharacterTextSplitter newline 1000 100) in
      emit split_documents_called ;;
      let* text_chunks :=
        lift (TextSplitter.split_documents text_splitter text) in
      let* vector_store := lift (FAISS_from_documents text_chunks) in
      emit index_built ;;
      let* key := getitem "hf_api_key" hf_api_key in
      let* chain := lift (create_conversational_chain vector_store key) in
      emit chain_created ;;
      display_chat_history chain inp
  end.

Definition main (inp : Inputs) : M unit :=
  initialize_session_state ;;
  emit (st_title (str "Multi-Docs ChatBot using Two Models (Retriever + Generator)")) ;;
  let* key := getitem "hf_api_key" hf_api_key in
  if negb (truthy_key key) then
    emit (st_text_input (str "Enter your Hugging Face API token:")) ;;
    modify_session (set_hf_api_key (Some (token_input inp))) ;;
    let* key := getitem "hf_api_key" hf_api_key in
    if negb (truthy_key key) then
      emit (st_warning (str "Please enter your Hugging Face API token to proceed."))
    else process_documents inp
  else process_documents inp.

End Script.

Arguments llm {VectorStore} _.
Arguments chain_type {VectorStore} _.
Arguments retriever {VectorStore} _.
Arguments memory {VectorStore} _.

(** ** Predicates on runs *)

(** The computation leaves the session dictionary as it found it, on
    every exit. *)
Definition session_frame {A} (m : M A) : Prop :=
  forall w, session_state (snd (m w)) = session_state w.

(** The computation only renders: session and temporary storage are as
    before, and every event it adds satisfies [P]. *)
Definition only_emits {A} (P : event -> Prop) (m : M A) : Prop :=
  forall w,
    session_state (snd (m w)) = session_state w
    /\ tmp (snd (m w)) = tmp w
    /\ exists evs, log (snd (m w)) = log w ++ evs /\ Forall P evs.

(** The predicate on sessions holds after the computation if it held
    before, on every exit. *)
Definition preserves {A} (I : SessionState -> Prop) (m : M A) : Prop :=
  forall w, I (session_state w) -> I (session_state (snd (m w))).

(** The extensions [main] has a loader for. *)
Definition supported_extension (e : text) : Prop :=
  e = str ".pdf" \/ e = str ".docx" \/ e = str ".doc" \/ e = str ".txt".

Definition file_extension (file : UploadedFile) : text :=
  snd (os_path.splitext (name file)).

Definition is_message (e : event) : Prop :=
  match e with
  | message _ _ _ => True
  | _ => False
  end.

(** Events of the page itself: the form and the transcript. *)
Definition is_page_event (e : event) : Prop :=
  match e with
  | st_form _ | message _ _ _ => True
  | _ => False
  end.

(** The three lists exist, [past] and [generated] have one length, and
    it is one more than the length of [history]. *)
Definition transcript_consistent (s : SessionState) : Prop :=
  exists h g p,
    history s = Some h /\ generated s = Some g /\ past s = Some p
    /\ length p = length g /\ length g = S (length h).

(** The same, allowing for the dictionary of a session whose first run
    has not started: none of the three keys is bound yet. *)
Definition lists_aligned (s : SessionState) : Prop :=
  match history s, generated s, past s with
  | Some h, Some g, Some p => length p = length g /\ length g = S (length h)
  | None, None, None => True
  | _, _, _ => False
  end.

(** The dictionary after [initialize_session_state]. *)
Definition initialized (s : SessionState) : SessionState :=
  {| history := Some (default [] (history s));
     generated :=
       Some (default [str "Hello! Ask me anything about your documents."]
                     (generated s));
     past := Some (default [str "Hey! " ++ [128075%N]] (past s));
     hf_api_key := Some (default None (hf_api_key s)) |}.

(** The three lists of [s'] are those of [s]. *)
Definition same_lists (s s' : SessionState) : Prop :=
  history s' = history s /\ generated s' = generated s /\ past s' = past s.

(** The lists of [s'] are those of [s] with one turn appended: the
    pair to [history], the question to [past], the answer to
    [generated]. *)
Definition turn_added (q : text) (s s' : SessionState) : Prop :=
  exists h g p a,
    history s = Some h /\ generated s = Some g /\ past s = Some p
    /\ history s' = Some (h ++ [(q, a)])
    /\ generated s' = Some (g ++ [a])
    /\ past s' = Some (p ++ [q]).

(** Is a credential stored in the session? *)
Definition stored_credential (s : SessionState) : bool :=
  match hf_api_key s with
  | Some (Some k) => truthy_str k
  | _ => false
  end.

(** At least one upload, and the form submitted with a question. *)
Definition question_ready (inp : Inputs) : bool :=
  match uploaded_files inp with [] => false | _ :: _ => true end
  && (submit_button inp && truthy_str (user_input inp)).

(** A run that reaches the question: a credential is stored or typed
    in this run, and the question is ready. *)
Definition asks (inp : Inputs) (s : SessionState) : bool :=
  (stored_credential s || truthy_str (token_input inp)) && question_ready inp.

(** On every exit [m] leaves a session related by [Q] to the result,
    when it starts from a session satisfying [J]. *)
Definition post {A} (J : SessionState -> Prop)
           (Q : result A -> SessionState -> Prop) (m : M A) : Prop :=
  forall w, J (session_state w) -> Q (fst (m w)) (session_state (snd (m w))).

Section Sessions.
Variable parse : loader_kind -> nat -> bytes -> result (list Document).
Variable VectorStore : Type.
Variable FAISS_from_documents : list Document -> result VectorStore.
Variable hub_validate : text -> option text -> result unit.
Variable chain_answer : Chain VectorStore -> text -> list (text * text) -> result text.

Local Abbreviation main' :=
  (main parse VectorStore FAISS_from_documents hub_validate chain_answer).

(** The session states a sequence of interactions can lead to: a new
    session has an empty dictionary, and every interaction runs
    [main] to its end, normal or exceptional. *)
Inductive reachable : World -> Prop :=
| reach_new t l :
    reachable {| session_state := empty_session; tmp := t; log := l |}
| reach_run inp w :
    reachable w -> reachable (snd (main' inp w)).

(** Successive runs of [main], each returning normally after it has
    put a question to the chain. *)
Fixpoint successful_turns (runs : list Inputs) (w : World) : Prop :=
  match runs with
  | [] => True
  | inp :: rest =>
      asks inp (session_state w) = true
      /\ fst (main' inp w) = Ok tt
      /\ successful_turns rest (snd (main' inp w))
  end.

Fixpoint world_after (runs : list Inputs) (w : World) : World :=
  match runs with
  | [] => w
  | inp :: rest => world_after rest (snd (main' inp w))
  end.

End Sessions.

(** The outcome of a run seen from the session [s0] it starts in: the
    lists are untouched (and then no question was ready, or the run
    raised), or one turn was appended. *)
Definition turn_outcome (ready : bool) (q : text) (s0 : SessionState)
           (r : result unit) (s' : SessionState) : Prop :=
  (same_lists s0 s' /\ (ready = false \/ exists e, r = Raise e))
  \/ turn_added q s0 s'.

(** A line of a document: a non-empty piece between newlines. *)
Definition line_of (docs : list Document) (p : text) : Prop :=
  exists d, In d docs
            /\ In p (TextSplitter._split_text_with_regex (page_content d) newline).

(** A chunk fits the chunk size, or is one line of the input, stripped. *)
Definition chunk_fits_or_is_line (docs : list Document) (c : Document) : Prop :=
  len (page_content c) <= 1000
  \/ exists p, line_of docs p /\ page_content c = TextSplitter.strip p.

(** The builder as the specification describes the intended pipeline:
    one retrieval index and one generation model, with no second model
    constructed. *)
Definition create_conversational_chain_generator_only
           (VectorStore : Type)
           (hub_validate : text -> option text -> result unit)
           (vector_store : VectorStore) (key : option text)
  : result (Chain VectorStore) :=
  rbind (HuggingFaceHub hub_validate (str "google/flan-t5-large") (1 # 100)%Q 500 key)
    (fun generator_llm =>
  Ok {| llm := generator_llm;
        chain_type := str "stuff";
        retriever := {| vectorstore := vector_store; search_k := 3 |};
        memory := {| memory_key := str "chat_history"; return_messages := true |} |}).

(** ** Sample inputs and collaborators *)

(** A document that is one line of 1001 letters [a]. *)
Definition long_line : Document := doc_of (repeat 97%N 1001).

Definition sky_and_grass : Document :=
  doc_of (str "The sky is blue." ++ newline ++ str "Grass is green.").

Definition sample_parse (k : loader_kind) (path : nat) (data : bytes)
  : result (list Document) :=
  Ok [{| page_content := str "The sky is blue." ++ newline ++ str "Grass is green.";
         metadata := [(str "source", MInt (Z.of_nat path))] |}].

Definition fresh_world : World :=
  {| session_state := empty_session; tmp := ∅; log := [] |}.

(** An index build that refuses an empty chunk list. *)
Definition sample_index (chunks : list Document) : result (list Document) :=
  match chunks with
  | [] => Raise IndexError
  | _ :: _ => Ok chunks
  end.

(** A hub client that wants a non-empty token. *)
Definition sample_hub (repo : text) (token : option text) : result unit :=
  match token with
  | Some (_ :: _) => Ok tt
  | _ => Raise ValueError
  end.

(** A chain that always answers, and one whose model rejects the token. *)
Definition answering_chain (c : Chain (list Document)) (q : text)
           (h : list (text * text)) : result text :=
  Ok (str "blue").

Definition rejecting_chain (c : Chain (list Document)) (q : text)
           (h : list (text * text)) : result text :=
  Raise (Collaborator 401).

Definition sample_chain : Chain (list Document) :=
  {| llm := {| repo_id := str "google/flan-t5-large";
               temperature := (1 # 100)%Q; max_length := 500;
               huggingfacehub_api_token := Some (str "hf_token") |};
     chain_type := str "stuff";
     retriever := {| vectorstore := [sky_and_grass]; search_k := 3 |};
     memory := {| memory_key := str "chat_history"; return_messages := true |} |}.

Definition sample_main : Inputs -> M unit :=
  main sample_parse (list Document) sample_index sample_hub answering_chain.

Definition sky_question : Inputs :=
  {| token_input := str "hf_token";
     uploaded_files := [{| name := str "notes.txt"; content := [] |}];
     submit_button := true;
     user_input := str "What color is the sky?" |}.

Definition grass_question : Inputs :=
  {| token_input := [];
     uploaded_files := [{| name := str "notes.txt"; content := [] |}];
     submit_button := true;
     user_input := str "And the grass?" |}.

Definition nothing_typed : Inputs :=
  {| token_input := []; uploaded_files := []; submit_button := false;
     user_input := [] |}.

(** A session after one answered question. *)
Definition one_turn_world : World := snd (sample_main sky_question fresh_world).

(** ** Further predicates *)

(** The two greeting entries of a new session. *)
Definition greeting_generated : text :=
  str "Hello! Ask me anything about your documents.".

Definition greeting_past : text := str "Hey! " ++ [128075%N].

(** After the greeting, [past] lists the questions of [history] and
    [generated] its answers. *)
Definition transcript_mirrors (s : SessionState) : Prop :=
  exists h,
    history s = Some h
    /\ past s = Some (greeting_past :: map fst h)
    /\ generated s = Some (greeting_generated :: map snd h).

(** The messages of the transcript from index [i] on: the entry of
    [past] as the user's, then the entry of [generated], for as long as
    both lists have one. *)
Fixpoint transcript_from (i : nat) (p g : list text) : list event :=
  match p, g with
  | q :: p', a :: g' =>
      message q true (str (pretty i) ++ str "_user")
      :: message a false (str (pretty i))
      :: transcript_from (S i) p' g'
  | _, _ => []
  end.

Definition message_key (e : event) : option text :=
  match e with
  | message _ _ key => Some key
  | _ => None
  end.

(** What a file contributes when it has a loader and the parser
    returns, reading it from [path]. *)
Definition loads (parse : loader_kind -> nat -> bytes -> result (list Document))
           (path : nat) (file : UploadedFile) : option (list Document) :=
  match choose_loader (file_extension file) with
  | Some kind =>
      match parse kind path (content file) with
      | Ok loaded => Some loaded
      | Raise _ => None
      end
  | None => None
  end.

Definition is_unsupported (file : UploadedFile) : bool :=
  match choose_loader (file_extension file) with
  | Some _ => false
  | None => true
  end.

(** The outcome of a run from a session with aligned lists: the lists
    are untouched (no question was ready, or the run raised), or one
    turn was appended, the question was ready and the run returned. *)
Definition run_outcome (ready : bool) (q : text) (s0 : SessionState)
           (r : result unit) (s' : SessionState) : Prop :=
  (same_lists s0 s' /\ (ready = false \/ exists e, r = Raise e))
  \/ (turn_added q s0 s' /\ r = Ok tt /\ ready = true).

(** A hub client that cannot construct the small model. *)
Definition small_model_unavailable (repo : text) (token : option text)
  : result unit :=
  if text_eqb repo (str "google/flan-t5-small") then Raise (Collaborator 404)
  else Ok tt.

(** A parser that cannot read PDF files. *)
Definition pdf_failing_parse (k : loader_kind) (path : nat) (data : bytes)
  : result (list Document) :=
  match k with
  | PyPDFLoader => Raise (Collaborator 1)
  | _ => sample_parse k path data
  end.

(** An index build that accepts anything. *)
Definition lenient_index (chunks : list Document) : result (list Document) :=
  Ok chunks.

Definition csv_only : Inputs :=
  {| token_input := str "hf_token";
     uploaded_files := [{| name := str "table.csv"; content := [] |}];
     submit_button := true;
     user_input := str "What color is the sky?" |}.

Definition token_only : Inputs :=
  {| token_input := str "hf_token"; uploaded_files := [];
     submit_button := true; user_input := str "What color is the sky?" |}.

(** The document [sample_parse] returns for the file behind [path]. *)
Definition sky_and_grass_at (path : nat) : Document :=
  {| page_content := str "The sky is blue." ++ newline ++ str "Grass is green.";
     metadata := [(str "source", MInt (Z.of_nat path))] |}.

(** The code points of the decimal digits. *)
Definition is_digit_code (c : N) : Prop := (48 <= c <= 57)%N.

(** A text that is not empty and neither starts nor ends with white
    space. *)
Definition trimmed (c : text) : Prop :=
  match c with
  | [] => False
  | x :: _ => TextSplitter.isspace x = false
  end
  /\ match rev c with
     | [] => False
     | x :: _ => TextSplitter.isspace x = false
     end.

(** The lines of a document joined by single newlines: its text without
    the empty lines. *)
Definition joined_lines (d : Document) : text :=
  TextSplitter.join newline
    (TextSplitter._split_text_with_regex (page_content d) newline).

(** ** Comparing two ingestions *)

(** [f] applied to what a call returned. *)
Definition rmap {A B} (f : A -> B) (r : result A) : result B :=
  match r with
  | Ok a => Ok (f a)
  | Raise e => Raise e
  end.

(** Two segments are the same up to the temporary path they are
    attributed to: equal, or one extracted segment attributed by [tag]
    to two paths. *)
Definition same_segment (tag : nat -> Document -> Document)
           (a b : Document) : Prop :=
  a = b \/ exists x p q, a = tag p x /\ b = tag q x.

(** Two ingestions end alike: the same exception, or segment lists
    that agree one by one up to the temporary paths. *)
Definition same_segments (tag : nat -> Document -> Document)
           (r r' : result (list Document)) : Prop :=
  match r, r' with
  | Ok l, Ok l' => Forall2 (same_segment tag) l l'
  | Raise e, Raise e' => e = e'
  | _, _ => False
  end.

(** [sample_parse] as an extraction from the bytes, attributed to the
    path afterwards. *)
Definition sample_extract (k : loader_kind) (data : bytes)
  : result (list Document) :=
  Ok [doc_of (str "The sky is blue." ++ newline ++ str "Grass is green.")].

Definition sample_tag (path : nat) (x : Document) : Document :=
  {| page_content := page_content x;
     metadata := [(str "source", MInt (Z.of_nat path))] |}.

(** ** The turn a run records *)

Section RecordedTurns.
Variable parse : loader_kind -> nat -> bytes -> result (list Document).
Variable VectorStore : Type.
Variable FAISS_from_documents : list Document -> result VectorStore.
Variable hub_validate : text -> option text -> result unit.
Variable chain_answer : Chain VectorStore -> text -> list (text * text) -> result text.

(** Lines 97 to 125 of [main]: from the ingestion loop to the chain
    object that is handed to [display_chat_history]. *)
Definition build_chain (inp : Inputs) : M (Chain VectorStore) :=
  let* text := ingest_files parse (uploaded_files inp) [] in
  let* text_splitter :=
    lift (TextSplitter.CharacterTextSplitter newline 1000 100) in
  emit split_documents_called ;;
  let* text_chunks :=
    lift (TextSplitter.split_documents text_splitter text) in
  let* vector_store := lift (FAISS_from_documents text_chunks) in
  emit index_built ;;
  let* key := getitem "hf_api_key" hf_api_key in
  let* chain := lift (create_conversational_chain VectorStore hub_validate
                        vector_store key) in
  emit chain_created ;;
  ret chain.

(** The world in which a run of [main] that has a credential starts
    the ingestion loop: the session initialised, the credential typed
    in this run stored if none was, and the page rendered down to the
    uploader. *)
Definition upload_world (inp : Inputs) (w : World) : World :=
  if stored_credential (session_state w) then
    {| session_state := initialized (session_state w);
       tmp := tmp w;
       log := log w
              ++ [st_title (str "Multi-Docs ChatBot using Two Models (Retriever + Generator)");
                  st_sidebar_title (str "Document Processing");
                  st_sidebar_file_uploader] |}
  else
    {| session_state :=
         set_hf_api_key (Some (token_input inp)) (initialized (session_state w));
       tmp := tmp w;
       log := log w
              ++ [st_title (str "Multi-Docs ChatBot using Two Models (Retriever + Generator)");
                  st_text_input (str "Enter your Hugging Face API token:");
                  st_sidebar_title (str "Document Processing");
                  st_sidebar_file_uploader] |}.

(** The answer of a run: when the run reaches the question and the
    chain is built, what the chain returns for the question typed and
    the history as it is before the run. *)
Definition answer_of_run (inp : Inputs) (w : World) : option text :=
  if asks inp (session_state w) then
    match build_chain inp (upload_world inp w) with
    | (Ok chain, _) =>
        match chain_answer chain (user_input inp)
                (default [] (history (session_state w))) with
        | Ok a => Some a
        | Raise _ => None
        end
    | (Raise _, _) => None
    end
  else None.

(** The turn a run records: the question with that answer, if any. *)
Definition turn_of_run (inp : Inputs) (w : World) : list (text * text) :=
  match answer_of_run inp w with
  | Some a => [(user_input inp, a)]
  | None => []
  end.

(** The turns of a sequence of runs, each run starting in the world
    the one before it left. *)
Fixpoint turns_of_runs (runs : list Inputs) (w : World) : list (text * text) :=
  match runs with
  | [] => []
  | inp :: rest =>
      turn_of_run inp w
      ++ turns_of_runs rest
           (snd (main parse VectorStore FAISS_from_documents hub_validate
                   chain_answer inp w))
  end.

End RecordedTurns.

(** A session in which nothing was asked in between. *)
Definition idle_then_questions : list Inputs :=
  [nothing_typed; sky_question; csv_only; token_only; grass_question].

(** * Proofs *)

(** ** Properties of the splitter *)

Module TextSplitterFacts.
Import TextSplitter.

Lemma len_nonneg {A} (l : list A) : 0 <= len l.
Proof. unfold len. lia. Qed.

Lemma len_app {A} (l k : list A) : len (l ++ k) = len l + len k.
Proof. unfold len. rewrite length_app. lia. Qed.

Lemma len_cons {A} (x : A) (l : list A) : len (x :: l) = 1 + len l.
Proof. unfold len. simpl. lia. Qed.

Lemma len_pos_nonempty (p : text) : p <> [] -> 1 <= len p.
Proof. destruct p; [congruence | rewrite len_cons; pose proof (len_nonneg p); lia]. Qed.

Lemma lstrip_len s : len (lstrip s) <= len s.
Proof.
  induction s as [|c s IH]; simpl; [lia|].
  destruct (isspace c); rewrite ?len_cons in *; lia.
Qed.

Lemma strip_len s : len (strip s) <= len s.
Proof.
  unfold strip, rstrip.
  assert (Hrev : forall l : text, len (rev l) = len l)
    by (intros l; unfold len; now rewrite length_rev).
  rewrite Hrev.
  etransitivity; [apply lstrip_len|]. rewrite Hrev. apply lstrip_len.
Qed.

Lemma join_cons sep x rest :
  len (join sep (x :: rest))
  = len x + sep_if (0 <? len rest) (len sep) + len (join sep rest).
Proof.
  destruct rest as [|y rest].
  - simpl join. unfold sep_if. simpl. unfold len at 3. simpl. lia.
  - change (join sep (x :: y :: rest)) with (x ++ sep ++ join sep (y :: rest)).
    rewrite !len_app. unfold sep_if.
    assert ((0 <? len (y :: rest)) = true) as ->
      by (apply Z.ltb_lt; rewrite len_cons; pose proof (len_nonneg rest); lia).
    lia.
Qed.

Lemma join_snoc sep cur d :
  len (join sep (cur ++ [d]))
  = len (join sep cur) + len d + sep_if (0 <? len cur) (len sep).
Proof.
  induction cur as [|x cur IH].
  - simpl. unfold sep_if, len. simpl. lia.
  - change ((x :: cur) ++ [d]) with (x :: (cur ++ [d])).
    rewrite !join_cons, IH. unfold sep_if.
    assert ((0 <? len (cur ++ [d])) = true) as ->
      by (apply Z.ltb_lt; rewrite len_app, len_cons;
          pose proof (len_nonneg cur); unfold len at 2; simpl; lia).
    assert ((0 <? len (x :: cur)) = true) as ->
      by (apply Z.ltb_lt; rewrite len_cons; pose proof (len_nonneg cur); lia).
    destruct (0 <? len cur); lia.
Qed.

Lemma join_nonempty sep cur :
  cur <> [] -> Forall (fun p => p <> []) cur -> 1 <= len (join sep cur).
Proof.
  destruct cur as [|x cur]; [congruence|]. intros _ H.
  rewrite join_cons. inversion H; subst.
  pose proof (len_pos_nonempty x ltac:(assumption)).
  pose proof (len_nonneg (join sep cur)). pose proof (len_nonneg sep).
  unfold sep_if. destruct (0 <? len cur); lia.
Qed.

Section Merge.
Variable cfg : config.
Variable sep : text.
Hypothesis overlap_nonneg : 0 <= chunk_overlap cfg.

(** What the [while] loop leaves behind: a suffix of the window,
    its exact width, and a false guard. *)
Lemma pop_front_spec _len cur :
  Forall (fun p => p <> []) cur ->
  exists cur',
    pop_front cfg (len sep) _len cur (len (join sep cur))
      = Ok (cur', len (join sep cur'))
    /\ Forall (fun p => p <> []) cur'
    /\ keep_popping cfg (len sep) _len cur' (len (join sep cur')) = false.
Proof.
  induction cur as [|x cur IH]; intros Hne.
  - exists []. simpl.
    assert (keep_popping cfg (len sep) _len [] (len (@nil N)) = false) as E.
    { unfold keep_popping. change (len (@nil N)) with 0.
      apply orb_false_iff; split.
      - apply Z.ltb_ge. exact overlap_nonneg.
      - apply andb_false_iff; right. reflexivity. }
    change (join sep []) with (@nil N). rewrite E. auto.
  - inversion Hne as [|? ? Hx Hcur]; subst.
    destruct (IH Hcur) as (cur' & Hpop & Hne' & Hstop).
    cbn [pop_front].
    destruct (keep_popping cfg (len sep) _len (x :: cur)
                (len (join sep (x :: cur)))) eqn:E.
    + exists cur'. repeat split; auto.
      rewrite <- Hpop. f_equal.
      rewrite join_cons.
      assert ((1 <? len (x :: cur)) = (0 <? len cur)) as ->.
      { rewrite len_cons. destruct (0 <? len cur) eqn:E1.
        - apply Z.ltb_lt in E1. apply Z.ltb_lt. lia.
        - apply Z.ltb_ge in E1. apply Z.ltb_ge. lia. }
      lia.
    + exists (x :: cur). repeat split; auto.
Qed.

Lemma emitted_good pieces st :
  merge_inv cfg sep (fits_or_single cfg pieces) st ->
  (forall p, In p (current_doc st) -> In p pieces) ->
  Forall (fits_or_single cfg pieces)
         (append_doc (docs st) (_join_docs (current_doc st) sep)).
Proof.
  intros [Ht Hp Hw Hd] Hsub. unfold append_doc, _join_docs.
  destruct (strip (join sep (current_doc st))) as [|c t] eqn:E; [exact Hd|].
  apply Forall_app; split; [exact Hd|].
  constructor; [|constructor].
  destruct Hw as [Hw | Hw].
  - left. rewrite <- E. pose proof (strip_len (join sep (current_doc st))). lia.
  - destruct (current_doc st) as [|p [|q l]] eqn:Hp1.
    + discriminate E.
    + right. exists p. split; [apply Hsub; now left | now rewrite <- E].
    + simpl in Hw. lia.
Qed.

Lemma merge_step_inv pieces st d :
  merge_inv cfg sep (fits_or_single cfg pieces) st ->
  (forall p, In p (current_doc st) -> In p pieces) ->
  d <> [] -> In d pieces ->
  exists st',
    merge_step cfg sep st d = Ok st'
    /\ merge_inv cfg sep (fits_or_single cfg pieces) st'
    /\ (forall p, In p (current_doc st') -> In p pieces).
Proof.
  intros Hinv Hsub Hd Hin.
  pose proof Hinv as [Ht Hp Hw Hdocs].
  unfold merge_step.
  destruct (chunk_size cfg
            <? total st + len d + sep_if (0 <? len (current_doc st)) (len sep))
    eqn:Ebig.
  - destruct (0 <? len (current_doc st)) eqn:Ecur.
    + (* the window is emitted and shortened from the front *)
      destruct (pop_front_spec (len d) (current_doc st) Hp)
        as (cur' & Hpop & Hne' & Hstop).
      rewrite Ht, Hpop. cbn [rbind].
      eexists; split; [reflexivity|].
      assert (Hsuf : forall p, In p cur' -> In p pieces).
      { intros p Hp'. apply Hsub.
        clear -Hpop Hp'. revert Hpop.
        generalize (len (join sep (current_doc st))).
        induction (current_doc st) as [|x l IH]; intros z; cbn [pop_front].
        - destruct (keep_popping _ _ _ _ _); [discriminate|].
          intros [= <- _]. destruct Hp'.
        - destruct (keep_popping _ _ _ _ _).
          + intros H. right. eapply IH; eauto.
          + intros [= <- _]. exact Hp'. }
      split.
      * constructor; cbn.
        -- rewrite join_snoc.
           assert ((1 <? len (cur' ++ [d])) = (0 <? len cur')) as ->.
           { rewrite len_app. change (len [d]) with 1.
             destruct (0 <? len cur') eqn:E1.
             - apply Z.ltb_lt in E1. apply Z.ltb_lt. lia.
             - apply Z.ltb_ge in E1. apply Z.ltb_ge. lia. }
           lia.
        -- apply Forall_app; split; auto.
        -- unfold keep_popping in Hstop.
           apply orb_false_iff in Hstop as [_ Hstop].
           destruct cur' as [|y cur'].
           ++ right. simpl. lia.
           ++ left.
              assert (1 <= len (join sep (y :: cur')))
                by (apply join_nonempty; [congruence | assumption]).
              apply andb_false_iff in Hstop as [Hstop | Hstop];
                [|apply Z.ltb_ge in Hstop; lia].
              apply Z.ltb_ge in Hstop.
              assert ((1 <? len ((y :: cur') ++ [d])) = true) as ->.
              { apply Z.ltb_lt. rewrite len_app, len_cons.
                change (len [d]) with 1. pose proof (len_nonneg cur'). lia. }
              assert ((0 <? len (y :: cur')) = true) as Hpos
                by (apply Z.ltb_lt; rewrite len_cons;
                    pose proof (len_nonneg cur'); lia).
              rewrite Hpos in Hstop. unfold sep_if in *. lia.
        -- apply (emitted_good pieces st); assumption.
      * cbn. intros p Hp'. apply in_app_or in Hp' as [Hp' | [<- | []]]; auto.
    + (* empty window: the long piece is taken as it is *)
      cbn [rbind]. eexists; split; [reflexivity|].
      assert (current_doc st = []) as Hnil.
      { apply Z.ltb_ge in Ecur.
        destruct (current_doc st) as [|y l] eqn:E; [reflexivity|].
        rewrite len_cons in Ecur. pose proof (len_nonneg l). lia. }
      split.
      * constructor; cbn; rewrite ?Hnil.
        -- rewrite Ht, Hnil. cbn. unfold sep_if, len. simpl. lia.
        -- constructor; [assumption | constructor].
        -- right. simpl. lia.
        -- exact Hdocs.
      * cbn. rewrite Hnil. intros p [<- | []]. assumption.
  - (* the piece still fits *)
    cbn [rbind]. eexists; split; [reflexivity|].
    apply Z.ltb_ge in Ebig.
    split.
    + constructor; cbn.
      * rewrite join_snoc, Ht.
        assert ((1 <? len (current_doc st ++ [d]))
                = (0 <? len (current_doc st))) as ->.
        { rewrite len_app. change (len [d]) with 1.
          destruct (0 <? len (current_doc st)) eqn:E1.
          - apply Z.ltb_lt in E1. apply Z.ltb_lt. lia.
          - apply Z.ltb_ge in E1. apply Z.ltb_ge. lia. }
        lia.
      * apply Forall_app; split; auto.
      * left.
        assert ((1 <? len (current_doc st ++ [d]))
                = (0 <? len (current_doc st))) as ->.
        { rewrite len_app. change (len [d]) with 1.
          destruct (0 <? len (current_doc st)) eqn:E1.
          - apply Z.ltb_lt in E1. apply Z.ltb_lt. lia.
          - apply Z.ltb_ge in E1. apply Z.ltb_ge. lia. }
        lia.
      * exact Hdocs.
    + cbn. intros p Hp'. apply in_app_or in Hp' as [Hp' | [<- | []]]; auto.
Qed.

Lemma merge_loop_inv pieces splits : forall st,
  merge_inv cfg sep (fits_or_single cfg pieces) st ->
  (forall p, In p (current_doc st) -> In p pieces) ->
  Forall (fun p => p <> []) splits ->
  (forall p, In p splits -> In p pieces) ->
  exists st',
    merge_loop cfg sep st splits = Ok st'
    /\ merge_inv cfg sep (fits_or_single cfg pieces) st'
    /\ (forall p, In p (current_doc st') -> In p pieces).
Proof.
  induction splits as [|d splits IH]; intros st Hinv Hsub Hne Hin.
  - exists st. auto.
  - inversion Hne; subst.
    destruct (merge_step_inv pieces st d Hinv Hsub) as (st1 & E1 & Hinv1 & Hsub1);
      [assumption | apply Hin; now left |].
    cbn [merge_loop]. rewrite E1. cbn [rbind].
    apply IH; auto. intros p Hp. apply Hin. now right.
Qed.

(** [_merge_splits] never raises on non-empty pieces, and each chunk
    fits the chunk size or is one piece, stripped. *)
Lemma merge_splits_chunks splits :
  Forall (fun p => p <> []) splits ->
  exists chunks,
    _merge_splits cfg splits sep = Ok chunks
    /\ Forall (fits_or_single cfg splits) chunks.
Proof.
  intros Hne. unfold _merge_splits.
  destruct (merge_loop_inv splits splits
              {| docs := []; current_doc := []; total := 0 |})
    as (st & E & Hinv & Hsub); auto.
  - constructor; cbn; auto.
  - cbn. intros p [].
  - rewrite E. cbn [rbind]. eexists; split; [reflexivity|].
    apply emitted_good; assumption.
Qed.

End Merge.

Lemma split_pieces_nonempty s sep :
  Forall (fun p => p <> []) (_split_text_with_regex s sep).
Proof.
  unfold _split_text_with_regex. apply Forall_forall. intros p Hp.
  apply list_elem_of_filter in Hp. tauto.
Qed.

End TextSplitterFacts.

(** ** Frames *)

Section Frames.

Lemma frame_preserves {A} I (m : M A) : session_frame m -> preserves I m.
Proof. intros H w Hw. now rewrite H. Qed.

Lemma preserves_bind {A B} I (m : M A) (k : A -> M B) :
  preserves I m -> (forall a, preserves I (k a)) -> preserves I (bind m k).
Proof.
  intros Hm Hk w Hw. unfold bind. specialize (Hm w Hw).
  destruct (m w) as [[a|e] w1]; simpl in *; [now apply Hk | assumption].
Qed.

Lemma frame_bind {A B} (m : M A) (k : A -> M B) :
  session_frame m -> (forall a, session_frame (k a)) -> session_frame (bind m k).
Proof.
  intros Hm Hk w. unfold bind. specialize (Hm w).
  destruct (m w) as [[a|e] w1]; simpl in *; [now rewrite Hk | assumption].
Qed.

Lemma frame_ret {A} (a : A) : session_frame (ret a).
Proof. now intros w. Qed.

Lemma frame_raise {A} e : session_frame (@raise A e).
Proof. now intros w. Qed.

Lemma frame_lift {A} (r : result A) : session_frame (lift r).
Proof. now intros w. Qed.

Lemma frame_emit e : session_frame (emit e).
Proof. now intros w. Qed.

Lemma frame_getitem {A} key (field : SessionState -> option A) :
  session_frame (getitem key field).
Proof. intros w. unfold getitem, bind, get_session. now destruct (field _). Qed.

Lemma frame_index {A} (l : list A) i : session_frame (index l i).
Proof. intros w. unfold index. now destruct (l !! i). Qed.

Lemma frame_tempfile data : session_frame (NamedTemporaryFile_write data).
Proof. now intros w. Qed.

Lemma frame_os_remove path : session_frame (os_remove_file path).
Proof. intros w. unfold os_remove_file. now destruct (tmp w !! path). Qed.

Lemma frame_read_file path : session_frame (read_file path).
Proof. intros w. unfold read_file. now destruct (tmp w !! path). Qed.

Lemma only_ret {A} P (a : A) : only_emits P (ret a).
Proof.
  intros w. cbn. repeat split. exists []. now rewrite app_nil_r.
Qed.

Lemma only_raise {A} P e : only_emits P (@raise A e).
Proof.
  intros w. cbn. repeat split. exists []. now rewrite app_nil_r.
Qed.

Lemma only_emit (P : event -> Prop) e : P e -> only_emits P (emit e).
Proof.
  intros He w. cbn. repeat split. exists [e]. split; [reflexivity|].
  now constructor.
Qed.

Lemma only_getitem {A} P key (field : SessionState -> option A) :
  only_emits P (getitem key field).
Proof.
  intros w. unfold getitem, bind, get_session.
  destruct (field _); cbn; repeat split; exists []; now rewrite app_nil_r.
Qed.

Lemma only_index {A} P (l : list A) i : only_emits P (index l i).
Proof.
  intros w. unfold index.
  destruct (l !! i); cbn; repeat split; exists []; now rewrite app_nil_r.
Qed.

Lemma only_bind {A B} P (m : M A) (k : A -> M B) :
  only_emits P m -> (forall a, only_emits P (k a)) -> only_emits P (bind m k).
Proof.
  intros Hm Hk w. unfold bind.
  destruct (Hm w) as (Hs & Ht & evs & Hl & Hp).
  destruct (m w) as [[a|e] w1]; simpl in *.
  - destruct (Hk a w1) as (Hs' & Ht' & evs' & Hl' & Hp').
    repeat split; [congruence | congruence |].
    exists (evs ++ evs'). split.
    + rewrite Hl', Hl. now rewrite app_assoc.
    + now apply Forall_app.
  - repeat split; auto. now exists evs.
Qed.

End Frames.

Create HintDb frames.

#[local] Hint Resolve frame_ret frame_raise frame_lift frame_emit frame_getitem
  frame_index frame_tempfile frame_os_remove frame_read_file : frames.

(** Unfold the primitive operations of the monad and compute. *)
Ltac run_ops :=
  unfold getitem_list, getitem, index, NamedTemporaryFile_write, read_file,
    os_remove_file, emit, lift, get_session, modify_session, ret, raise, bind;
  cbn.

(** The same on an explicit world, leaving the transcript loop folded. *)
Ltac run_world :=
  unfold getitem_list, getitem, index, NamedTemporaryFile_write, read_file,
    os_remove_file, emit, lift, get_session, modify_session, ret, raise, bind,
    set_history, set_generated, set_past, set_hf_api_key;
  cbn -[render_transcript process_documents].

Ltac frame_steps :=
  repeat first
    [ apply frame_bind; [|intros ?]
    | solve [auto with frames] ].

(** ** Ingestion *)

Section Ingestion.
Variable parse : loader_kind -> nat -> bytes -> result (list Document).

Lemma choose_loader_none e :
  ~ supported_extension e -> choose_loader e = None.
Proof.
  intros H. unfold choose_loader, text_eqb.
  repeat case_bool_decide; simpl; try reflexivity;
    exfalso; apply H; unfold supported_extension; tauto.
Qed.

Lemma choose_loader_some e k :
  choose_loader e = Some k -> supported_extension e.
Proof.
  unfold choose_loader, text_eqb, supported_extension.
  repeat case_bool_decide; simpl; intros; try discriminate; tauto.
Qed.

Lemma fresh_path_unused (w : World) : tmp w !! fresh (dom (tmp w)) = None.
Proof. apply not_elem_of_dom, is_fresh. Qed.

(** An unsupported file: the step hands back [text] untouched, and
    the temporary file it wrote is still there. *)
Lemma ingest_file_unsupported file text w :
  ~ supported_extension (file_extension file) ->
  ingest_file parse file text w
  = (Ok text,
     {| session_state := session_state w;
        tmp := <[fresh (dom (tmp w)) := content file]> (tmp w);
        log := log w ++ [tempfile_written (fresh (dom (tmp w)))] |}).
Proof.
  intros H. unfold ingest_file, file_extension in *.
  rewrite (choose_loader_none _ H). reflexivity.
Qed.

(** A supported file whose parser returns: the segments are appended
    and temporary storage is as it was before the step. *)
Lemma ingest_file_loaded file text w k loaded :
  choose_loader (file_extension file) = Some k ->
  parse k (fresh (dom (tmp w))) (content file) = Ok loaded ->
  fst (ingest_file parse file text w) = Ok (text ++ loaded)
  /\ tmp (snd (ingest_file parse file text w)) = tmp w.
Proof.
  intros Hk Hp. unfold ingest_file, file_extension in *. rewrite Hk.
  unfold load. run_ops.
  rewrite lookup_insert_eq, Hp. cbn. rewrite lookup_insert_eq. cbn.
  split; [reflexivity|].
  rewrite delete_insert_eq. apply delete_id, fresh_path_unused.
Qed.

(** A supported file whose parser raises: the exception leaves the
    step before [os.remove] is reached. *)
Lemma ingest_file_parse_raises file text w k e :
  choose_loader (file_extension file) = Some k ->
  parse k (fresh (dom (tmp w))) (content file) = Raise e ->
  fst (ingest_file parse file text w) = Raise e
  /\ tmp (snd (ingest_file parse file text w)) !! fresh (dom (tmp w))
     = Some (content file).
Proof.
  intros Hk Hp. unfold ingest_file, file_extension in *. rewrite Hk.
  unfold load. run_ops.
  rewrite lookup_insert_eq, Hp. cbn. split; [reflexivity|].
  apply lookup_insert_eq.
Qed.

Lemma ingest_files_app before after : forall text w,
  ingest_files parse (before ++ after) text w
  = bind (ingest_files parse before text)
         (fun text' => ingest_files parse after text') w.
Proof.
  induction before as [|f before IH]; intros text w; [reflexivity|].
  cbn [ingest_files app]. unfold bind.
  destruct (ingest_file parse f text w) as [[t|e] w1]; [|reflexivity].
  rewrite IH. reflexivity.
Qed.

Lemma frame_load k path : session_frame (load parse k path).
Proof. unfold load. frame_steps. Qed.

Lemma frame_ingest_file file text : session_frame (ingest_file parse file text).
Proof.
  unfold ingest_file. apply frame_bind; [auto with frames|]. intros path.
  destruct (choose_loader _); [|auto with frames].
  apply frame_bind; [apply frame_load|]. intros. frame_steps.
Qed.

Lemma frame_ingest_files files : forall text,
  session_frame (ingest_files parse files text).
Proof.
  induction files as [|f files IH]; intros text; cbn [ingest_files].
  - auto with frames.
  - apply frame_bind; [apply frame_ingest_file | intros; apply IH].
Qed.

End Ingestion.

(** C1 (what the code does at the failing input).  A file named
    [data.csv] has no loader: its ingestion step returns normally with
    the text list unchanged, never calls [os.remove], and the temporary
    file written for it is still in temporary storage when the step has
    finished. *)
Theorem ingest_csv_keeps_temp_file
  (parse : loader_kind -> nat -> bytes -> result (list Document))
  (data : bytes) (text : list Document) (w : World) :
  let file := {| name := str "data.csv"; content := data |} in
  let path := fresh (dom (tmp w)) in
  let w' := snd (ingest_file parse file text w) in
  tmp w !! path = None
  /\ fst (ingest_file parse file text w) = Ok text
  /\ tmp w' !! path = Some data
  /\ log w' = log w ++ [tempfile_written path].
Proof.
  intros file path w'.
  assert (Hext : ~ supported_extension (file_extension file)).
  { unfold supported_extension. vm_compute. intros [H|[H|[H|H]]]; discriminate H. }
  split; [apply fresh_path_unused|].
  subst w'. rewrite (ingest_file_unsupported parse file text w Hext). cbn.
  split; [reflexivity|]. split; [apply lookup_insert_eq | reflexivity].
Qed.

Section ComparedIngestions.
Variable parse : loader_kind -> nat -> bytes -> result (list Document).
Variable extract : loader_kind -> bytes -> result (list Document).
Variable tag : nat -> Document -> Document.

(** The loader reads the bytes and attributes what it extracts to the
    path it was given. *)
Hypothesis parse_tags :
  forall k p data, parse k p data = rmap (map (tag p)) (extract k data).

Lemma same_segment_refl l : Forall2 (same_segment tag) l l.
Proof. induction l; constructor; [now left | assumption]. Qed.

Lemma tagged_same_segment p q xs :
  Forall2 (same_segment tag) (map (tag p) xs) (map (tag q) xs).
Proof.
  induction xs as [|x xs IH]; cbn; constructor; [|exact IH].
  right. now exists x, p, q.
Qed.

(** One file, read in two worlds into two lists that agree. *)
Lemma ingest_file_related file text text' w w' :
  Forall2 (same_segment tag) text text' ->
  same_segments tag (fst (ingest_file parse file text w))
                    (fst (ingest_file parse file text' w')).
Proof.
  intros Htext.
  destruct (choose_loader (file_extension file)) as [k|] eqn:Hk.
  - pose proof (parse_tags k (fresh (dom (tmp w))) (content file)) as H1.
    pose proof (parse_tags k (fresh (dom (tmp w'))) (content file)) as H2.
    destruct (extract k (content file)) as [xs|e]; cbn [rmap] in H1, H2.
    + destruct (ingest_file_loaded parse file text w k _ Hk H1) as [E1 _].
      destruct (ingest_file_loaded parse file text' w' k _ Hk H2) as [E2 _].
      rewrite E1, E2. cbn.
      apply Forall2_app; [exact Htext | apply tagged_same_segment].
    + destruct (ingest_file_parse_raises parse file text w k e Hk H1) as [E1 _].
      destruct (ingest_file_parse_raises parse file text' w' k e Hk H2)
        as [E2 _].
      rewrite E1, E2. reflexivity.
  - unfold file_extension in Hk. unfold ingest_file. rewrite Hk.
    cbn. exact Htext.
Qed.

Lemma ingest_files_related files : forall text text' w w',
  Forall2 (same_segment tag) text text' ->
  same_segments tag (fst (ingest_files parse files text w))
                    (fst (ingest_files parse files text' w')).
Proof.
  induction files as [|f files IH]; intros text text' w w' Htext.
  - exact Htext.
  - cbn [ingest_files]. unfold bind.
    pose proof (ingest_file_related f text text' w w' Htext) as Hstep.
    destruct (ingest_file parse f text w) as [[t|e] w1];
      destruct (ingest_file parse f text' w') as [[t'|e'] w1'];
      cbn in Hstep; try contradiction.
    + now apply IH.
    + cbn. exact Hstep.
Qed.

(** Leaving a file without a loader out of a batch. *)
Lemma ingest_files_without file before after text w :
  ~ supported_extension (file_extension file) ->
  same_segments tag
    (fst (ingest_files parse (before ++ file :: after) text w))
    (fst (ingest_files parse (before ++ after) text w)).
Proof.
  intros Hfile. rewrite !ingest_files_app. unfold bind.
  destruct (ingest_files parse before text w) as [[t|e] w1]; [|reflexivity].
  cbn [ingest_files]. unfold bind at 1.
  rewrite (ingest_file_unsupported parse file t w1 Hfile).
  apply ingest_files_related, same_segment_refl.
Qed.

Lemma same_segments_text r r' :
  (forall p x, page_content (tag p x) = page_content x) ->
  same_segments tag r r' ->
  rmap (map page_content) r = rmap (map page_content) r'.
Proof.
  intros Htag. destruct r as [l|e], r' as [l'|e']; cbn; try contradiction.
  - intros H. f_equal. induction H as [|a b l l' Hab _ IH]; [reflexivity|].
    cbn. f_equal; [|exact IH].
    destruct Hab as [-> | (x & p & q & -> & ->)]; [reflexivity|].
    now rewrite !Htag.
  - now intros ->.
Qed.

End ComparedIngestions.

Lemma same_segments_untagged r r' :
  same_segments (fun _ x => x) r r' -> r = r'.
Proof.
  destruct r as [l|e], r' as [l'|e']; cbn; try contradiction.
  - intros H. f_equal. induction H as [|a b l l' Hab _ IH]; [reflexivity|].
    f_equal; [|exact IH].
    destruct Hab as [-> | (x & p & q & -> & ->)]; reflexivity.
  - now intros ->.
Qed.

(** C3.  A file whose extension is none of [.pdf], [.docx], [.doc],
    [.txt] contributes no segment and does not raise: its step returns
    the text list it was given and leaves the session alone.  The
    segments of the other files are unaffected, wherever the file
    stands in the batch: the batch with the file and the batch without
    it end with the same exception or with segment lists that agree
    one by one, up to the temporary path a loader attributes a segment
    to; so the texts of the segments are the same, and the lists are
    equal when the loaders do not record the path. *)
Theorem unsupported_file_contributes_nothing
  (parse : loader_kind -> nat -> bytes -> result (list Document))
  (file : UploadedFile) :
  ~ supported_extension (file_extension file) ->
  (forall text w,
      fst (ingest_file parse file text w) = Ok text
      /\ session_state (snd (ingest_file parse file text w)) = session_state w)
  /\ (forall before text w,
        fst (ingest_files parse (before ++ [file]) text w)
        = fst (ingest_files parse before text w))
  /\ (forall after text w,
        ingest_files parse (file :: after) text w
        = ingest_files parse after text
            (snd (NamedTemporaryFile_write (content file) w)))
  /\ (forall extract tag,
        (forall k p data,
            parse k p data = rmap (map (tag p)) (extract k data)) ->
        forall before after text w,
          same_segments tag
            (fst (ingest_files parse (before ++ file :: after) text w))
            (fst (ingest_files parse (before ++ after) text w))
          /\ ((forall p x, page_content (tag p x) = page_content x) ->
              rmap (map page_content)
                (fst (ingest_files parse (before ++ file :: after) text w))
              = rmap (map page_content)
                  (fst (ingest_files parse (before ++ after) text w))))
  /\ ((forall k p q data, parse k p data = parse k q data) ->
      forall before after text w,
        fst (ingest_files parse (before ++ file :: after) text w)
        = fst (ingest_files parse (before ++ after) text w)).
Proof.
  intros H. split; [|split; [|split; [|split]]].
  - intros text w. now rewrite (ingest_file_unsupported parse file text w H).
  - intros before text w. rewrite ingest_files_app. unfold bind.
    destruct (ingest_files parse before text w) as [[t|e] w1]; [|reflexivity].
    cbn [ingest_files]. unfold bind.
    now rewrite (ingest_file_unsupported parse file t w1 H).
  - intros after text w. cbn [ingest_files]. unfold bind.
    now rewrite (ingest_file_unsupported parse file text w H).
  - intros extract tag Hparse before after text w.
    pose proof (ingest_files_without parse extract tag Hparse file before
                  after text w H) as Hsame.
    split; [exact Hsame|].
    intros Htag. now apply (same_segments_text tag).
  - intros Hpath before after text w.
    apply same_segments_untagged.
    apply (ingest_files_without parse (fun k data => parse k 0%nat data)
             (fun _ x => x)); [|exact H].
    intros k p data. rewrite (Hpath k p 0%nat data).
    destruct (parse k 0%nat data) as [l|e]; cbn; [|reflexivity].
    now rewrite map_id.
Qed.

Lemma unsupported_file_contributes_nothing_witness :
  ~ supported_extension (file_extension {| name := str "table.csv"; content := [] |})
  /\ fst (ingest_files sample_parse
            [{| name := str "notes.txt"; content := [] |};
             {| name := str "table.csv"; content := [] |}] [] fresh_world)
     = fst (ingest_files sample_parse
              [{| name := str "notes.txt"; content := [] |}] [] fresh_world)
  /\ rmap (map page_content)
       (fst (ingest_files sample_parse
               [{| name := str "table.csv"; content := [] |};
                {| name := str "notes.txt"; content := [] |}] [] fresh_world))
     = rmap (map page_content)
         (fst (ingest_files sample_parse
                 [{| name := str "notes.txt"; content := [] |}] []
                 fresh_world)).
Proof.
  assert (H : ~ supported_extension
                (file_extension {| name := str "table.csv"; content := [] |})).
  { unfold supported_extension. vm_compute.
    intros [H|[H|[H|H]]]; discriminate H. }
  split; [exact H|].
  pose proof (unsupported_file_contributes_nothing sample_parse
                {| name := str "table.csv"; content := [] |} H)
    as (_ & Hbefore & _ & Hany & _).
  split.
  - exact (Hbefore [{| name := str "notes.txt"; content := [] |}] []
             fresh_world).
  - refine (proj2 (Hany sample_extract sample_tag _ []
                     [{| name := str "notes.txt"; content := [] |}] []
                     fresh_world) _).
    + intros k p data. reflexivity.
    + intros p x. reflexivity.
Defined.

(** ** Question turns *)

Section Turns.
Variable VectorStore : Type.
Variable chain_answer : Chain VectorStore -> text -> list (text * text) -> result text.

Lemma only_render_messages indices : only_emits is_message (render_messages indices).
Proof.
  induction indices as [|i rest IH]; cbn [render_messages].
  - apply only_ret.
  - apply only_bind; [apply only_getitem | intros p].
    apply only_bind; [apply only_index | intros q].
    apply only_bind; [now apply only_emit | intros _].
    apply only_bind; [apply only_getitem | intros g].
    apply only_bind; [apply only_index | intros a].
    apply only_bind; [now apply only_emit | intros _].
    exact IH.
Qed.

Lemma only_render_transcript : only_emits is_message render_transcript.
Proof.
  unfold render_transcript.
  apply only_bind; [apply only_getitem | intros [|x g]].
  - apply only_ret.
  - apply only_render_messages.
Qed.

Lemma frame_render_transcript : session_frame render_transcript.
Proof. intros w. apply only_render_transcript. Qed.

(** The transcript loop reads [past[i]] and [generated[i]] for every
    [i] below [len(generated)]: with lists of equal length it returns. *)
Lemma render_messages_ok indices w g p :
  generated (session_state w) = Some g ->
  past (session_state w) = Some p ->
  Forall (fun i => (i < length g)%nat /\ (i < length p)%nat) indices ->
  fst (render_messages indices w) = Ok tt.
Proof.
  revert w. induction indices as [|i rest IH]; intros w Hg Hp Hall;
    [reflexivity|].
  inversion Hall as [|? ? [Hig Hip] Hrest]; subst.
  destruct (lookup_lt_is_Some_2 p i Hip) as [q Hq].
  destruct (lookup_lt_is_Some_2 g i Hig) as [a Ha].
  cbn [render_messages]. run_ops. rewrite Hp. cbn. rewrite Hq. cbn.
  rewrite Hg. cbn. rewrite Ha. cbn.
  apply IH; cbn; auto.
Qed.

Lemma render_transcript_ok w g p :
  generated (session_state w) = Some g ->
  past (session_state w) = Some p ->
  length p = length g ->
  fst (render_transcript w) = Ok tt.
Proof.
  intros Hg Hp Hlen. unfold render_transcript. run_ops. rewrite Hg. cbn.
  destruct g as [|x g]; [reflexivity|].
  apply (render_messages_ok _ w (x :: g) p Hg Hp).
  apply Forall_forall. intros i Hi. apply elem_of_seq in Hi. lia.
Qed.

(** An answered question: the three lists grow by one entry each. *)
Lemma display_turn_answered chain inp w h g p a :
  history (session_state w) = Some h ->
  generated (session_state w) = Some g ->
  past (session_state w) = Some p ->
  submit_button inp = true ->
  truthy_str (user_input inp) = true ->
  chain_answer chain (user_input inp) h = Ok a ->
  session_state (snd (display_chat_history VectorStore chain_answer chain inp w))
  = {| history := Some (h ++ [(user_input inp, a)]);
       generated := Some (g ++ [a]);
       past := Some (p ++ [user_input inp]);
       hf_api_key := hf_api_key (session_state w) |}.
Proof.
  intros Hh Hg Hp Hs Hq Ha. unfold display_chat_history.
  rewrite Hs, Hq. cbn [andb].
  destruct w as [[oh og op k] t l]. cbn in Hh, Hg, Hp. subst oh og op.
  unfold conversation_chat, history_object, past_object, generated_object.
  run_world. rewrite Ha. run_world.
  rewrite frame_render_transcript. reflexivity.
Qed.

(** A question whose chain call raises: the exception leaves
    [conversation_chat] before [history.append], and
    [display_chat_history] before the two other appends. *)
Lemma display_turn_failed chain inp w h e :
  history (session_state w) = Some h ->
  submit_button inp = true ->
  truthy_str (user_input inp) = true ->
  chain_answer chain (user_input inp) h = Raise e ->
  fst (display_chat_history VectorStore chain_answer chain inp w) = Raise e
  /\ session_state (snd (display_chat_history VectorStore chain_answer chain inp w))
     = session_state w.
Proof.
  intros Hh Hs Hq Ha. unfold display_chat_history.
  rewrite Hs, Hq. cbn [andb].
  destruct w as [[oh og op k] t l]. cbn in Hh. subst oh.
  unfold conversation_chat, history_object.
  run_world. rewrite Ha. run_world. auto.
Qed.

(** No question: only the form and the transcript are rendered. *)
Lemma display_no_question chain inp :
  submit_button inp && truthy_str (user_input inp) = false ->
  only_emits is_page_event
    (display_chat_history VectorStore chain_answer chain inp).
Proof.
  intros Hc. unfold display_chat_history. rewrite Hc.
  apply only_bind; [now apply only_emit | intros _].
  apply only_bind; [apply only_ret | intros _].
  intros w. destruct (only_render_transcript w) as (Hs & Ht & evs & Hl & Hp).
  repeat split; auto. exists evs. split; [assumption|].
  eapply Forall_impl; [exact Hp|]. intros [] H; simpl in *; tauto.
Qed.

End Turns.

(** ** Runs of [main] *)

Section Runs.
Variable parse : loader_kind -> nat -> bytes -> result (list Document).
Variable VectorStore : Type.
Variable FAISS_from_documents : list Document -> result VectorStore.
Variable hub_validate : text -> option text -> result unit.
Variable chain_answer : Chain VectorStore -> text -> list (text * text) -> result text.

Local Abbreviation main' :=
  (main parse VectorStore FAISS_from_documents hub_validate chain_answer).
Local Abbreviation process_documents' :=
  (process_documents parse VectorStore FAISS_from_documents hub_validate
     chain_answer).
Local Abbreviation display_chat_history' :=
  (display_chat_history VectorStore chain_answer).

Lemma initialize_session_state_run w :
  initialize_session_state w
  = (Ok tt, {| session_state := initialized (session_state w);
               tmp := tmp w; log := log w |}).
Proof.
  destruct w as [[[h|] [g|] [p|] [k|]] t l]; reflexivity.
Qed.

Lemma initialized_consistent s :
  lists_aligned s -> transcript_consistent (initialized s).
Proof.
  unfold lists_aligned, transcript_consistent, initialized.
  destruct s as [[h|] [g|] [p|] k]; cbn; intros H; try contradiction.
  - exists h, g, p. tauto.
  - eexists _, _, _. repeat split; reflexivity.
Qed.

Lemma consistent_aligned s : transcript_consistent s -> lists_aligned s.
Proof.
  intros (h & g & p & Hh & Hg & Hp & H). unfold lists_aligned.
  now rewrite Hh, Hg, Hp.
Qed.

Lemma same_lists_consistent s s' :
  same_lists s s' -> transcript_consistent s -> transcript_consistent s'.
Proof.
  intros (Eh & Eg & Ep) (h & g & p & Hh & Hg & Hp & H).
  exists h, g, p. rewrite Eh, Eg, Ep. tauto.
Qed.

Lemma turn_added_consistent q s s' :
  turn_added q s s' -> transcript_consistent s -> transcript_consistent s'.
Proof.
  intros (h & g & p & a & Hh & Hg & Hp & Eh & Eg & Ep)
         (h' & g' & p' & Hh' & Hg' & Hp' & H1 & H2).
  assert (h' = h) as -> by congruence.
  assert (g' = g) as -> by congruence.
  assert (p' = p) as -> by congruence.
  exists (h ++ [(q, a)]), (g ++ [a]), (p ++ [q]).
  repeat split; auto; rewrite !length_app; cbn; lia.
Qed.

(** What one call of [display_chat_history] does to the session. *)
Lemma display_cases chain inp w :
  let r := display_chat_history' chain inp w in
  (session_state (snd r) = session_state w
   /\ (submit_button inp && truthy_str (user_input inp) = false
       \/ exists e, fst r = Raise e))
  \/ (exists h a,
        history (session_state w) = Some h
        /\ chain_answer chain (user_input inp) h = Ok a
        /\ history (session_state (snd r)) = Some (h ++ [(user_input inp, a)])
        /\ (forall g p,
              generated (session_state w) = Some g ->
              past (session_state w) = Some p ->
              generated (session_state (snd r)) = Some (g ++ [a])
              /\ past (session_state (snd r)) = Some (p ++ [user_input inp]))).
Proof.
  cbn zeta.
  destruct (submit_button inp && truthy_str (user_input inp)) eqn:Hc.
  - apply andb_true_iff in Hc as [Hs Hq].
    destruct (history (session_state w)) as [h|] eqn:Hh.
    + destruct (chain_answer chain (user_input inp) h) as [a|e] eqn:Ha.
      * right. exists h, a. repeat split; auto.
        -- unfold display_chat_history. rewrite Hs, Hq. cbn [andb].
           destruct w as [[oh og op k] t l]. cbn in Hh. subst oh.
           unfold conversation_chat, history_object, past_object,
             generated_object.
           run_world. rewrite Ha. run_world.
           destruct op as [p|]; run_world; [|reflexivity].
           destruct og as [g|]; run_world;
             now rewrite ?frame_render_transcript.
        -- rewrite (display_turn_answered _ chain_answer chain inp w h g p a);
             auto.
        -- rewrite (display_turn_answered _ chain_answer chain inp w h g p a);
             auto.
      * left.
        destruct (display_turn_failed _ chain_answer chain inp w h e)
          as [E1 E2]; eauto.
    + left. unfold display_chat_history. rewrite Hs, Hq. cbn [andb].
      destruct w as [[oh og op k] t l]. cbn in Hh. subst oh.
      unfold conversation_chat, history_object. run_world. eauto.
  - left. split; [|now left].
    apply (display_no_question _ chain_answer chain inp Hc w).
Qed.

Section Post.
Context {B : Type}.
Variable J : SessionState -> Prop.
Variable Q : result B -> SessionState -> Prop.
Hypothesis raise_ok : forall e s, J s -> Q (Raise e) s.

Lemma post_bind {A} (m : M A) (k : A -> M B) :
  preserves J m -> (forall a, post J Q (k a)) -> post J Q (bind m k).
Proof.
  intros Hm Hk w Hw. unfold bind. specialize (Hm w Hw).
  destruct (m w) as [[a|e] w1]; cbn in *; [now apply Hk | now apply raise_ok].
Qed.

Lemma post_frame_bind {A} (m : M A) (k : A -> M B) :
  session_frame m -> (forall a, post J Q (k a)) -> post J Q (bind m k).
Proof. intros Hm. apply post_bind. now apply frame_preserves. Qed.
End Post.

Lemma post_process_documents inp s0 :
  (exists h g p, history s0 = Some h /\ generated s0 = Some g /\ past s0 = Some p) ->
  post (same_lists s0)
       (turn_outcome (question_ready inp) (user_input inp) s0)
       (process_documents' inp).
Proof.
  intros (h & g & p & Hh & Hg & Hp).
  assert (Hraise : forall e s, same_lists s0 s ->
            turn_outcome (question_ready inp) (user_input inp) s0 (Raise e) s)
    by (intros e s Hs; left; eauto).
  unfold process_documents.
  apply post_frame_bind; [assumption | auto with frames | intros _].
  apply post_frame_bind; [assumption | auto with frames | intros _].
  destruct (uploaded_files inp) as [|f files] eqn:Hfiles.
  { intros w Hw. left. split; [exact Hw|]. left.
    unfold question_ready. now rewrite Hfiles. }
  apply post_frame_bind; [assumption | apply frame_ingest_files | intros text].
  apply post_frame_bind; [assumption | auto with frames | intros text_splitter].
  apply post_frame_bind; [assumption | auto with frames | intros _].
  apply post_frame_bind; [assumption | auto with frames | intros text_chunks].
  apply post_frame_bind; [assumption | auto with frames | intros vector_store].
  apply post_frame_bind; [assumption | auto with frames | intros _].
  apply post_frame_bind; [assumption | auto with frames | intros key].
  apply post_frame_bind; [assumption | auto with frames | intros chain].
  apply post_frame_bind; [assumption | auto with frames | intros _].
  intros w (Eh & Eg & Ep).
  destruct (display_cases chain inp w) as [[E Hwhy] | (h' & a & Hh' & _ & Eh' & Hgp)].
  - left. split; [rewrite E; repeat split; assumption|].
    destruct Hwhy as [Hc | He]; [left | now right].
    unfold question_ready. rewrite Hc. now rewrite Hfiles.
  - right. destruct (Hgp g p) as [Eg' Ep']; [congruence | congruence |].
    exists h, g, p, a. repeat split; auto.
    assert (h' = h) as <- by congruence. exact Eh'.
Qed.

(** [main] with its credential check spelled out on the world. *)
Lemma main_run inp w :
  main' inp w
  = let w1 :=
      {| session_state := initialized (session_state w);
         tmp := tmp w;
         log := log w ++ [st_title (str "Multi-Docs ChatBot using Two Models (Retriever + Generator)")] |} in
    if stored_credential (session_state w) then process_documents' inp w1
    else
      let w2 :=
        {| session_state :=
             set_hf_api_key (Some (token_input inp)) (initialized (session_state w));
           tmp := tmp w;
           log := log w1 ++ [st_text_input (str "Enter your Hugging Face API token:")] |} in
      if truthy_str (token_input inp) then process_documents' inp w2
      else
        (Ok tt,
         {| session_state := session_state w2;
            tmp := tmp w;
            log := log w2 ++ [st_warning (str "Please enter your Hugging Face API token to proceed.")] |}).
Proof.
  unfold main, bind at 1. rewrite initialize_session_state_run.
  destruct w as [[oh og op ok] t l]. unfold stored_credential.
  destruct ok as [[k|]|]; run_world; try destruct (truthy_str k);
    cbn [negb]; try reflexivity;
    destruct (truthy_str (token_input inp)); reflexivity.
Qed.

(** The outcome of a whole run of [main]. *)
Lemma main_outcome inp w :
  turn_outcome (asks inp (session_state w)) (user_input inp)
    (initialized (session_state w))
    (fst (main' inp w)) (session_state (snd (main' inp w))).
Proof.
  set (s0 := initialized (session_state w)).
  assert (Hlists : exists h g p,
             history s0 = Some h /\ generated s0 = Some g /\ past s0 = Some p)
    by (eexists _, _, _; repeat split; reflexivity).
  assert (Hweak : forall c r s',
             turn_outcome (question_ready inp) (user_input inp) s0 r s' ->
             turn_outcome (c && question_ready inp) (user_input inp) s0 r s').
  { intros c r s' [[Hs [Hr | He]] | Ht]; [left | left | now right];
      (split; [assumption|]); [left | now right].
    rewrite Hr. apply andb_false_r. }
  rewrite main_run. fold s0. unfold asks. cbn zeta.
  destruct (stored_credential (session_state w)); cbn [orb].
  - apply Hweak. apply (post_process_documents inp s0 Hlists).
    cbn. repeat split.
  - destruct (truthy_str (token_input inp)) eqn:Htok.
    + apply Hweak. apply (post_process_documents inp s0 Hlists).
      cbn. repeat split.
    + cbn. left. split; [repeat split | now left].
Qed.

(** The lists after a non-empty sequence of answered questions. *)
Lemma successful_turns_lists runs : forall w,
  successful_turns parse VectorStore FAISS_from_documents hub_validate
    chain_answer runs w ->
  runs <> [] ->
  let s0 := initialized (session_state w) in
  let s' := session_state
              (world_after parse VectorStore FAISS_from_documents hub_validate
                 chain_answer runs w) in
  exists answers,
    length answers = length runs
    /\ history s'
       = fmap (fun h => h ++ zip (map user_input runs) answers) (history s0)
    /\ generated s' = fmap (fun g => g ++ answers) (generated s0)
    /\ past s' = fmap (fun p => p ++ map user_input runs) (past s0).
Proof.
  induction runs as [|inp rest IH]; intros w Hturns Hne; [congruence|].
  destruct Hturns as (Hasks & Hok & Hrest).
  pose proof (main_outcome inp w) as Hout.
  rewrite Hasks, Hok in Hout.
  destruct Hout as [[_ [Hf | [e He]]]
                   | (h & g & p & a & Hh & Hg & Hp & Eh & Eg & Ep)];
    [discriminate | discriminate |].
  cbn zeta. rewrite Hh, Hg, Hp. cbn [world_after fmap option_fmap option_map].
  destruct rest as [|inp' rest'].
  - exists [a]. cbn [world_after map zip zip_with]. repeat split; assumption.
  - destruct (IH _ Hrest ltac:(discriminate)) as (answers & Hlen & Eh' & Eg' & Ep').
    cbn zeta in Eh', Eg', Ep'.
    exists (a :: answers). split; [cbn; now rewrite Hlen|].
    rewrite Eh', Eg', Ep'. cbn [initialized history generated past].
    rewrite Eh, Eg, Ep. cbn. rewrite <- !app_assoc. repeat split; reflexivity.
Qed.

End Runs.

(** ** The chunker of [main] *)

Lemma main_splitter_constructed :
  TextSplitter.CharacterTextSplitter newline 1000 100 = Ok main_splitter.
Proof. reflexivity. Qed.

Lemma split_text_main s :
  exists chunks,
    TextSplitter.split_text main_splitter s = Ok chunks
    /\ Forall (fun c =>
                 len c <= 1000
                 \/ exists p,
                     In p (TextSplitter._split_text_with_regex s newline)
                     /\ c = TextSplitter.strip p) chunks.
Proof.
  unfold TextSplitter.split_text.
  apply (TextSplitterFacts.merge_splits_chunks main_splitter newline).
  - cbn. lia.
  - apply TextSplitterFacts.split_pieces_nonempty.
Qed.

Lemma create_documents_main inputs :
  exists chunks,
    TextSplitter.create_documents main_splitter inputs = Ok chunks
    /\ Forall (fun c =>
                 len (page_content c) <= 1000
                 \/ exists s md p,
                     In (s, md) inputs
                     /\ In p (TextSplitter._split_text_with_regex s newline)
                     /\ page_content c = TextSplitter.strip p) chunks.
Proof.
  induction inputs as [|[s md] rest (more & Emore & Hmore)].
  - exists []. split; [reflexivity | constructor].
  - destruct (split_text_main s) as (chunks & Echunks & Hchunks).
    cbn [TextSplitter.create_documents]. rewrite Echunks, Emore. cbn [rbind].
    eexists; split; [reflexivity|].
    apply Forall_app; split.
    + apply Forall_forall. intros c Hc.
      apply list_elem_of_fmap in Hc as (t & -> & Ht). cbn.
      rewrite Forall_forall in Hchunks.
      destruct (Hchunks t Ht) as [Hfit | (p & Hp & ->)]; [now left | right].
      exists s, md, p. split; [now left | split; [exact Hp | reflexivity]].
    + eapply Forall_impl; [exact Hmore|].
      intros c [Hfit | (s' & md' & p & Hin & Hp & E)]; [now left | right].
      exists s', md', p. split; [now right | split; assumption].
Qed.

Lemma split_documents_main docs :
  exists chunks,
    TextSplitter.split_documents main_splitter docs = Ok chunks
    /\ Forall (chunk_fits_or_is_line docs) chunks.
Proof.
  unfold TextSplitter.split_documents.
  destruct (create_documents_main
              (map (fun d => (page_content d, metadata d)) docs))
    as (chunks & E & H).
  exists chunks. split; [exact E|].
  eapply Forall_impl; [exact H|].
  intros c [Hfit | (s & md & p & Hin & Hp & Ec)]; [now left | right].
  exists p. split; [|exact Ec].
  apply in_map_iff in Hin as (d & [= <- <-] & Hd).
  now exists d.
Qed.

(** C4, counterexample.  The claim as stated fails: a document that is
    one line of 1001 characters comes back as one chunk of 1001
    characters. *)
Lemma chunk_longer_than_chunk_size :
  ~ (forall docs chunks,
        TextSplitter.split_documents main_splitter docs = Ok chunks ->
        Forall (fun c => len (page_content c) <= 1000) chunks).
Proof.
  intros H.
  specialize (H [long_line] [long_line]).
  assert (E : TextSplitter.split_documents main_splitter [long_line]
              = Ok [long_line]) by (vm_compute; reflexivity).
  specialize (H E). inversion H as [|c l Hc _]; subst.
  vm_compute in Hc. apply Hc. reflexivity.
Qed.

(** C4, amended.  For every input the chunker of [main] returns, and
    every chunk it returns either has at most 1000 characters or is a
    single line of an input document (a non-empty piece between
    newlines) with the white space at its ends stripped; so a chunk
    exceeds 1000 characters only when one line does. *)
Theorem chunk_size_bound_except_long_lines (docs : list Document) :
  exists chunks,
    TextSplitter.split_documents main_splitter docs = Ok chunks
    /\ Forall (chunk_fits_or_is_line docs) chunks.
Proof. apply split_documents_main. Qed.

(** When no line of the input exceeds 1000 characters, no chunk does. *)
Corollary short_lines_give_short_chunks docs chunks :
  (forall p, line_of docs p -> len p <= 1000) ->
  TextSplitter.split_documents main_splitter docs = Ok chunks ->
  Forall (fun c => len (page_content c) <= 1000) chunks.
Proof.
  intros Hlines E.
  destruct (split_documents_main docs) as (chunks' & E' & H).
  assert (chunks' = chunks) as -> by congruence.
  eapply Forall_impl; [exact H|].
  intros c [Hfit | (p & Hp & Ec)]; [exact Hfit|].
  rewrite Ec. pose proof (TextSplitterFacts.strip_len p).
  specialize (Hlines p Hp). lia.
Qed.

(** The scenario of one small text file: one chunk, the whole text. *)
Example sky_and_grass_one_chunk :
  TextSplitter.split_documents main_splitter [sky_and_grass] = Ok [sky_and_grass].
Proof. vm_compute. reflexivity. Qed.

(** ** Conversation history *)

(** C2.  When the chain call of a question turn raises, the exception
    leaves [conversation_chat] (and [display_chat_history]) with the
    session dictionary exactly as it was: no pair is appended to
    [history], and [past] and [generated] keep their length. *)
Theorem failed_generation_keeps_history
  (VectorStore : Type)
  (chain_answer : Chain VectorStore -> text -> list (text * text) -> result text)
  (chain : Chain VectorStore) (inp : Inputs) (w : World)
  (h : list (text * text)) (e : exn) :
  history (session_state w) = Some h ->
  submit_button inp = true ->
  truthy_str (user_input inp) = true ->
  chain_answer chain (user_input inp) h = Raise e ->
  (fst (conversation_chat VectorStore chain_answer (user_input inp) chain
          history_object w) = Raise e
   /\ session_state (snd (conversation_chat VectorStore chain_answer
                            (user_input inp) chain history_object w))
      = session_state w)
  /\ (fst (display_chat_history VectorStore chain_answer chain inp w) = Raise e
      /\ session_state (snd (display_chat_history VectorStore chain_answer
                               chain inp w))
         = session_state w).
Proof.
  intros Hh Hs Hq Ha. split.
  - destruct w as [[oh og op k] t l]. cbn in Hh. subst oh.
    unfold conversation_chat, history_object. run_world. rewrite Ha.
    run_world. auto.
  - now apply (display_turn_failed _ chain_answer chain inp w h e).
Qed.

Lemma failed_generation_keeps_history_witness :
  history (session_state one_turn_world)
  = Some [(str "What color is the sky?", str "blue")]
  /\ rejecting_chain sample_chain (user_input sky_question)
       [(str "What color is the sky?", str "blue")] = Raise (Collaborator 401)
  /\ fst (display_chat_history (list Document) rejecting_chain sample_chain
            sky_question one_turn_world) = Raise (Collaborator 401)
  /\ session_state (snd (display_chat_history (list Document) rejecting_chain
                           sample_chain sky_question one_turn_world))
     = session_state one_turn_world.
Proof.
  split; [vm_compute; reflexivity|]. split; [reflexivity|].
  refine (proj2 (failed_generation_keeps_history (list Document) rejecting_chain
                   sample_chain sky_question one_turn_world
                   [(str "What color is the sky?", str "blue")]
                   (Collaborator 401) _ _ _ _));
    vm_compute; reflexivity.
Defined.

(** C10.  Submitting the form with an empty question takes no turn:
    whatever the submit button, the call only renders the form and the
    transcript; no chain call is made and the session dictionary
    ([history], [past], [generated]) is as before. *)
Theorem empty_question_takes_no_turn
  (VectorStore : Type)
  (chain_answer : Chain VectorStore -> text -> list (text * text) -> result text)
  (chain : Chain VectorStore) (token : text) (files : list UploadedFile)
  (submitted : bool) :
  only_emits is_page_event
    (display_chat_history VectorStore chain_answer chain
       {| token_input := token; uploaded_files := files;
          submit_button := submitted; user_input := [] |}).
Proof.
  apply display_no_question. cbn. apply andb_false_r.
Qed.

Section RecordedRuns.
Variable parse : loader_kind -> nat -> bytes -> result (list Document).
Variable VectorStore : Type.
Variable FAISS_from_documents : list Document -> result VectorStore.
Variable hub_validate : text -> option text -> result unit.
Variable chain_answer : Chain VectorStore -> text -> list (text * text) -> result text.

Local Abbreviation main' :=
  (main parse VectorStore FAISS_from_documents hub_validate chain_answer).
Local Abbreviation process_documents' :=
  (process_documents parse VectorStore FAISS_from_documents hub_validate
     chain_answer).
Local Abbreviation display_chat_history' :=
  (display_chat_history VectorStore chain_answer).
Local Abbreviation build_chain' :=
  (build_chain parse VectorStore FAISS_from_documents hub_validate).
Local Abbreviation turn_of_run' :=
  (turn_of_run parse VectorStore FAISS_from_documents hub_validate chain_answer).
Local Abbreviation turns_of_runs' :=
  (turns_of_runs parse VectorStore FAISS_from_documents hub_validate
     chain_answer).
Local Abbreviation world_after' :=
  (world_after parse VectorStore FAISS_from_documents hub_validate chain_answer).

Lemma frame_build_chain inp : session_frame (build_chain' inp).
Proof.
  unfold build_chain.
  apply frame_bind; [apply frame_ingest_files | intros text].
  do 8 (apply frame_bind; [auto with frames | intros ?]).
  auto with frames.
Qed.

(** [main] below the uploader is [build_chain] followed by
    [display_chat_history]. *)
Lemma process_documents_build inp w :
  process_documents' inp w
  = (emit (st_sidebar_title (str "Document Processing")) ;;
     emit st_sidebar_file_uploader ;;
     match uploaded_files inp with
     | [] => ret tt
     | _ :: _ =>
         let* chain := build_chain' inp in
         display_chat_history' chain inp
     end) w.
Proof.
  unfold process_documents, build_chain.
  destruct (uploaded_files inp) as [|f fs]; [reflexivity|].
  generalize (f :: fs). intros files.
  unfold bind, emit, lift, ret.
  destruct (ingest_files parse files [] _) as [[text|e] w1]; [|reflexivity].
  destruct (TextSplitter.CharacterTextSplitter newline 1000 100)
    as [splitter|e]; [|reflexivity].
  destruct (TextSplitter.split_documents splitter text) as [chunks|e];
    [|reflexivity].
  destruct (FAISS_from_documents chunks) as [vs|e]; [|reflexivity].
  destruct (getitem "hf_api_key" hf_api_key _) as [[key|e] w2]; [|reflexivity].
  destruct (create_conversational_chain VectorStore hub_validate vs key)
    as [chain|e]; reflexivity.
Qed.

(** What the part of [main] from the ingestion loop on does to the
    session, in terms of the chain it builds and the chain's answer. *)
Lemma processing_effect inp w0 h g p :
  history (session_state w0) = Some h ->
  generated (session_state w0) = Some g ->
  past (session_state w0) = Some p ->
  let r := match uploaded_files inp with
           | [] => ret tt
           | _ :: _ =>
               let* chain := build_chain' inp in
               display_chat_history' chain inp
           end w0 in
  let turn :=
    match (if question_ready inp then
             match build_chain' inp w0 with
             | (Ok chain, _) =>
                 match chain_answer chain (user_input inp) h with
                 | Ok a => Some a
                 | Raise _ => None
                 end
             | (Raise _, _) => None
             end
           else None) with
    | Some a => [(user_input inp, a)]
    | None => []
    end in
  history (session_state (snd r)) = Some (h ++ turn)
  /\ generated (session_state (snd r)) = Some (g ++ map snd turn)
  /\ past (session_state (snd r)) = Some (p ++ map fst turn).
Proof.
  intros Hh Hg Hp. cbn zeta. unfold question_ready.
  assert (Hsame : forall w2,
             session_state w2 = session_state w0 ->
             history (session_state w2) = Some (h ++ [])
             /\ generated (session_state w2)
                = Some (g ++ map snd (@nil (text * text)))
             /\ past (session_state w2)
                = Some (p ++ map fst (@nil (text * text)))).
  { intros w2 E. cbn. rewrite !app_nil_r, E. auto. }
  destruct (uploaded_files inp) as [|f fs]; [now apply Hsame|].
  cbn [andb]. unfold bind.
  pose proof (frame_build_chain inp w0) as Hframe.
  destruct (build_chain' inp w0) as [[chain|e] w2]; cbn [snd] in Hframe.
  - destruct (submit_button inp && truthy_str (user_input inp)) eqn:Hc.
    + apply andb_true_iff in Hc as [Hs Hq].
      rewrite <- Hframe in Hh, Hg, Hp.
      destruct (chain_answer chain (user_input inp) h) as [a|e] eqn:Ha.
      * rewrite (display_turn_answered _ chain_answer chain inp w2 h g p a);
          auto.
      * apply Hsame.
        destruct (display_turn_failed _ chain_answer chain inp w2 h e)
          as [_ E]; auto. congruence.
    + apply Hsame.
      rewrite (proj1 (display_no_question _ chain_answer chain inp Hc w2)).
      exact Hframe.
  - destruct (submit_button inp && truthy_str (user_input inp));
      now apply Hsame.
Qed.

(** A run with a credential at hand, from the ingestion loop on. *)
Lemma main_with_credential inp w :
  stored_credential (session_state w) || truthy_str (token_input inp) = true ->
  main' inp w
  = match uploaded_files inp with
    | [] => ret tt
    | _ :: _ =>
        let* chain := build_chain' inp in
        display_chat_history' chain inp
    end (upload_world inp w).
Proof.
  intros Hcred. rewrite main_run. cbn zeta. unfold upload_world.
  destruct (stored_credential (session_state w)); cbn [orb] in Hcred;
    [|rewrite Hcred];
    rewrite process_documents_build;
    unfold bind at 1; unfold emit at 1; cbv beta iota;
    unfold bind at 1; unfold emit at 1; cbv beta iota;
    cbn [session_state tmp log]; rewrite <- !app_assoc; reflexivity.
Qed.

Lemma upload_world_lists inp w :
  history (session_state (upload_world inp w))
  = Some (default [] (history (session_state w)))
  /\ generated (session_state (upload_world inp w))
     = Some (default [greeting_generated] (generated (session_state w)))
  /\ past (session_state (upload_world inp w))
     = Some (default [greeting_past] (past (session_state w))).
Proof.
  unfold upload_world.
  destruct (stored_credential (session_state w)); repeat split; reflexivity.
Qed.

(** The session after any run of [main]: the lists as initialised,
    followed by the turn of the run. *)
Lemma main_lists_effect inp w :
  let s := session_state w in
  let s' := session_state (snd (main' inp w)) in
  history s' = Some (default [] (history s) ++ turn_of_run' inp w)
  /\ generated s'
     = Some (default [greeting_generated] (generated s)
               ++ map snd (turn_of_run' inp w))
  /\ past s'
     = Some (default [greeting_past] (past s)
               ++ map fst (turn_of_run' inp w)).
Proof.
  cbn zeta. unfold turn_of_run, answer_of_run, asks.
  destruct (stored_credential (session_state w)
            || truthy_str (token_input inp)) eqn:Hcred.
  - rewrite (main_with_credential inp w Hcred). cbn [andb].
    destruct (upload_world_lists inp w) as (Hh & Hg & Hp).
    exact (processing_effect inp (upload_world inp w) _ _ _ Hh Hg Hp).
  - apply orb_false_iff in Hcred as [Hst Htok].
    rewrite main_run. cbn zeta. rewrite Hst, Htok. cbn.
    rewrite !app_nil_r. auto.
Qed.

(** The session after a non-empty sequence of runs. *)
Lemma runs_lists_effect runs : forall w,
  runs <> [] ->
  let s := session_state w in
  let s' := session_state (world_after' runs w) in
  history s' = Some (default [] (history s) ++ turns_of_runs' runs w)
  /\ generated s'
     = Some (default [greeting_generated] (generated s)
               ++ map snd (turns_of_runs' runs w))
  /\ past s'
     = Some (default [greeting_past] (past s)
               ++ map fst (turns_of_runs' runs w)).
Proof.
  induction runs as [|inp rest IH]; intros w Hne; [congruence|].
  cbn zeta. cbn [world_after turns_of_runs].
  destruct (main_lists_effect inp w) as (Eh & Eg & Ep). cbn zeta in Eh, Eg, Ep.
  destruct rest as [|inp' rest'].
  - cbn [world_after turns_of_runs]. rewrite !app_nil_r. auto.
  - destruct (IH (snd (main' inp w)) ltac:(discriminate)) as (Eh' & Eg' & Ep').
    cbn zeta in Eh', Eg', Ep'. rewrite Eh', Eg', Ep', Eh, Eg, Ep.
    repeat match goal with
           | |- context [default ?d (Some ?x)] =>
               change (default d (Some x)) with x
           end.
    rewrite !map_app, <- !app_assoc. auto.
Qed.

(** A run that reaches the question and returns records a turn. *)
Lemma asked_run_records inp w :
  asks inp (session_state w) = true ->
  fst (main' inp w) = Ok tt ->
  exists a, turn_of_run' inp w = [(user_input inp, a)].
Proof.
  intros Hasks Hok.
  pose proof (main_outcome parse VectorStore FAISS_from_documents hub_validate
                chain_answer inp w) as Hout.
  rewrite Hasks, Hok in Hout.
  destruct Hout as [[_ [Hf | [e He]]] | (h & g & p & a & Hh & _ & _ & Eh & _)];
    [discriminate | discriminate |].
  destruct (main_lists_effect inp w) as (Eh' & _). cbn zeta in Eh'.
  cbn in Hh. injection Hh as <-. rewrite Eh in Eh'.
  injection Eh' as Eturn. apply app_inv_head in Eturn. eauto.
Qed.

Lemma successful_turns_recorded runs : forall w,
  successful_turns parse VectorStore FAISS_from_documents hub_validate
    chain_answer runs w ->
  length (turns_of_runs' runs w) = length runs
  /\ map fst (turns_of_runs' runs w) = map user_input runs.
Proof.
  induction runs as [|inp rest IH]; intros w Hturns; [split; reflexivity|].
  destruct Hturns as (Hasks & Hok & Hrest).
  destruct (asked_run_records inp w Hasks Hok) as [a Ea].
  destruct (IH _ Hrest) as [Hlen Hmap].
  cbn [turns_of_runs]. rewrite Ea. cbn. now rewrite Hlen, Hmap.
Qed.

End RecordedRuns.

(** C5.  [history] holds exactly the turns of the session: after any
    non-empty sequence of runs of [main], whatever their inputs and
    however each ends, [history] is what it was at the start followed
    by one pair for every run that reached the question and got an
    answer from the chain, in the order of the runs (the question
    typed, with the answer the chain returned for it and the history
    before that run) and nothing else; the questions are what was
    appended to [past] and the answers what was appended to
    [generated].  So after N runs that each put a question to the chain
    and returned normally there are N more entries, and exactly N in a
    new session; no run modifies or removes an earlier entry. *)
Theorem history_after_successful_turns
  (parse : loader_kind -> nat -> bytes -> result (list Document))
  (VectorStore : Type)
  (FAISS_from_documents : list Document -> result VectorStore)
  (hub_validate : text -> option text -> result unit)
  (chain_answer : Chain VectorStore -> text -> list (text * text) -> result text) :
  let main' :=
    main parse VectorStore FAISS_from_documents hub_validate chain_answer in
  let after :=
    world_after parse VectorStore FAISS_from_documents hub_validate chain_answer in
  let turns :=
    turns_of_runs parse VectorStore FAISS_from_documents hub_validate
      chain_answer in
  (forall runs w,
      runs <> [] ->
      let s := session_state w in
      let s' := session_state (after runs w) in
      history s' = Some (default [] (history s) ++ turns runs w)
      /\ generated s'
         = Some (default [greeting_generated] (generated s)
                   ++ map snd (turns runs w))
      /\ past s'
         = Some (default [greeting_past] (past s) ++ map fst (turns runs w))
      /\ (history s = None ->
          exists hist,
            history s' = Some hist /\ length hist = length (turns runs w)))
  /\ (forall runs w,
        successful_turns parse VectorStore FAISS_from_documents hub_validate
          chain_answer runs w ->
        length (turns runs w) = length runs
        /\ map fst (turns runs w) = map user_input runs)
  /\ (forall inp w h,
        history (session_state w) = Some h ->
        exists suffix,
          history (session_state (snd (main' inp w))) = Some (h ++ suffix)).
Proof.
  intros main' after turns. split; [|split].
  - intros runs w Hne. cbn zeta.
    destruct (runs_lists_effect parse VectorStore FAISS_from_documents
                hub_validate chain_answer runs w Hne) as (Eh & Eg & Ep).
    cbn zeta in Eh, Eg, Ep. repeat split; auto.
    intros Hnone. subst after turns. rewrite Eh, Hnone. cbn. eauto.
  - intros runs w Hturns.
    now apply successful_turns_recorded.
  - intros inp w h Hh.
    destruct (main_lists_effect parse VectorStore FAISS_from_documents
                hub_validate chain_answer inp w) as (Eh & _).
    cbn zeta in Eh. rewrite Hh in Eh. cbn in Eh. eauto.
Qed.

Lemma history_after_successful_turns_witness :
  successful_turns sample_parse (list Document) sample_index sample_hub
    answering_chain [sky_question; grass_question] fresh_world
  /\ length (turns_of_runs sample_parse (list Document) sample_index
               sample_hub answering_chain [sky_question; grass_question]
               fresh_world) = 2%nat
  /\ history (session_state
                (world_after sample_parse (list Document) sample_index
                   sample_hub answering_chain idle_then_questions fresh_world))
     = Some [(str "What color is the sky?", str "blue");
             (str "And the grass?", str "blue")].
Proof.
  assert (H : successful_turns sample_parse (list Document) sample_index
                sample_hub answering_chain [sky_question; grass_question]
                fresh_world)
    by (vm_compute; repeat split; reflexivity).
  split; [exact H|].
  pose proof (history_after_successful_turns sample_parse (list Document)
                sample_index sample_hub answering_chain) as (Hany & Hgood & _).
  split.
  - exact (proj1 (Hgood [sky_question; grass_question] fresh_world H)).
  - rewrite (proj1 (Hany idle_then_questions fresh_world ltac:(discriminate))).
    vm_compute. reflexivity.
Defined.

(** ** The chain builder *)

(** C6.  Whenever [create_conversational_chain] returns a chain, the
    builder that constructs no retrieval model returns the very same
    chain, so every question gets the same output from both; the only
    model the chain holds, and the only one a question turn calls, is
    the generation model [google/flan-t5-large]. *)
Theorem retriever_model_never_used
  (VectorStore : Type)
  (hub_validate : text -> option text -> result unit)
  (vector_store : VectorStore) (key : option text) (chain : Chain VectorStore) :
  create_conversational_chain VectorStore hub_validate vector_store key = Ok chain ->
  create_conversational_chain_generator_only VectorStore hub_validate
    vector_store key = Ok chain
  /\ repo_id (llm chain) = str "google/flan-t5-large"
  /\ (forall chain_answer query h w,
        history (session_state w) = Some h ->
        log (snd (conversation_chat VectorStore chain_answer query chain
                    history_object w))
        = log w ++ [chain_called
                      {| repo_id := str "google/flan-t5-large";
                         temperature := (1 # 100)%Q; max_length := 500;
                         huggingfacehub_api_token := key |} query]).
Proof.
  unfold create_conversational_chain, create_conversational_chain_generator_only,
    HuggingFaceHub.
  destruct (hub_validate (str "google/flan-t5-small") key) as [[]|e1];
    [|discriminate].
  destruct (hub_validate (str "google/flan-t5-large") key) as [[]|e2];
    [|discriminate].
  cbn [rbind]. intros [= <-]. split; [reflexivity|]. split; [reflexivity|].
  intros chain_answer query h w Hh.
  destruct w as [[oh og op k] t l]. cbn in Hh. subst oh.
  unfold conversation_chat, history_object. run_world.
  destruct (chain_answer _ query h); reflexivity.
Qed.

Lemma retriever_model_never_used_witness :
  create_conversational_chain (list Document) sample_hub [sky_and_grass]
    (Some (str "hf_token")) = Ok sample_chain
  /\ create_conversational_chain_generator_only (list Document) sample_hub
       [sky_and_grass] (Some (str "hf_token")) = Ok sample_chain.
Proof.
  assert (H : create_conversational_chain (list Document) sample_hub
                [sky_and_grass] (Some (str "hf_token")) = Ok sample_chain)
    by reflexivity.
  split; [exact H|].
  exact (proj1 (retriever_model_never_used (list Document) sample_hub
                  [sky_and_grass] (Some (str "hf_token")) sample_chain H)).
Defined.

(** ** The credential check *)

(** C7.  With no credential stored in the session and none typed in
    this run, [main] returns normally after the prompt: temporary
    storage is untouched, the only events are the title, the prompt
    and the warning (no upload is read, no index built, no question
    put to the chain), the three lists are those
    [initialize_session_state] leaves, and the stored credential is
    the empty string the prompt returned, so still no credential. *)
Theorem no_credential_no_processing
  (parse : loader_kind -> nat -> bytes -> result (list Document))
  (VectorStore : Type)
  (FAISS_from_documents : list Document -> result VectorStore)
  (hub_validate : text -> option text -> result unit)
  (chain_answer : Chain VectorStore -> text -> list (text * text) -> result text)
  (inp : Inputs) (w : World) :
  stored_credential (session_state w) = false ->
  truthy_str (token_input inp) = false ->
  let w' :=
    snd (main parse VectorStore FAISS_from_documents hub_validate chain_answer
           inp w) in
  fst (main parse VectorStore FAISS_from_documents hub_validate chain_answer
         inp w) = Ok tt
  /\ tmp w' = tmp w
  /\ log w'
     = log w
       ++ [st_title (str "Multi-Docs ChatBot using Two Models (Retriever + Generator)");
           st_text_input (str "Enter your Hugging Face API token:");
           st_warning (str "Please enter your Hugging Face API token to proceed.")]
  /\ same_lists (initialized (session_state w)) (session_state w')
  /\ hf_api_key (session_state w') = Some (Some [])
  /\ stored_credential (session_state w') = false.
Proof.
  intros Hkey Htok. cbn zeta. rewrite main_run. cbn zeta.
  rewrite Hkey, Htok. cbn.
  destruct (token_input inp); [|discriminate].
  rewrite <- !app_assoc. repeat split; reflexivity.
Qed.

Lemma no_credential_no_processing_witness :
  stored_credential (session_state fresh_world) = false
  /\ truthy_str (token_input nothing_typed) = false
  /\ fst (sample_main nothing_typed fresh_world) = Ok tt
  /\ tmp (snd (sample_main nothing_typed fresh_world)) = tmp fresh_world.
Proof.
  split; [reflexivity|]. split; [reflexivity|].
  pose proof (no_credential_no_processing sample_parse (list Document)
                sample_index sample_hub answering_chain nothing_typed
                fresh_world eq_refl eq_refl) as H.
  cbn zeta in H. split; [exact (proj1 H) | exact (proj1 (proj2 H))].
Defined.

(** ** The transcript lists *)

(** C9.  In every session state a sequence of runs of [main] can reach
    (whatever the inputs and whether runs return or raise) the lists
    [past] and [generated] have the same length, one more than
    [history], as soon as they exist; and the transcript loop, run on
    the initialised dictionary, returns without an index error. *)
Theorem transcript_lists_aligned
  (parse : loader_kind -> nat -> bytes -> result (list Document))
  (VectorStore : Type)
  (FAISS_from_documents : list Document -> result VectorStore)
  (hub_validate : text -> option text -> result unit)
  (chain_answer : Chain VectorStore -> text -> list (text * text) -> result text)
  (w : World) :
  reachable parse VectorStore FAISS_from_documents hub_validate chain_answer w ->
  lists_aligned (session_state w)
  /\ transcript_consistent (initialized (session_state w))
  /\ (forall w1,
        session_state w1 = initialized (session_state w) ->
        fst (render_transcript w1) = Ok tt).
Proof.
  intros Hreach.
  assert (Haligned : lists_aligned (session_state w)).
  { induction Hreach as [t l | inp w Hreach IH]; [exact I|].
    apply consistent_aligned.
    pose proof (initialized_consistent _ IH) as Hinit.
    destruct (main_outcome parse VectorStore FAISS_from_documents hub_validate
                chain_answer inp w) as [[Hsame _] | Hturn].
    - eapply same_lists_consistent; eassumption.
    - eapply turn_added_consistent; eassumption. }
  split; [exact Haligned|].
  pose proof (initialized_consistent _ Haligned) as Hinit.
  split; [exact Hinit|].
  intros w1 E. destruct Hinit as (h & g & p & Hh & Hg & Hp & Hpg & _).
  rewrite <- E in Hg, Hp. now apply (render_transcript_ok w1 g p).
Qed.

Lemma transcript_lists_aligned_witness :
  reachable sample_parse (list Document) sample_index sample_hub
    answering_chain one_turn_world
  /\ lists_aligned (session_state one_turn_world)
  /\ fst (render_transcript one_turn_world) = Ok tt.
Proof.
  assert (Hreach : reachable sample_parse (list Document) sample_index
                     sample_hub answering_chain one_turn_world)
    by exact (reach_run _ _ _ _ _ sky_question fresh_world
                (reach_new _ _ _ _ _ ∅ [])).
  split; [exact Hreach|].
  pose proof (transcript_lists_aligned sample_parse (list Document) sample_index
                sample_hub answering_chain one_turn_world Hreach)
    as (H1 & _ & H3).
  split; [exact H1|]. apply H3. vm_compute. reflexivity.
Defined.

(** * Further properties of the script *)

(** ** Session initialisation *)

(** X1.  [initialize_session_state] always returns, binds the four
    keys, never replaces the value of a key that is already bound,
    touches nothing else, and running it again changes nothing. *)
Theorem initialize_session_state_keeps_bound_keys (w : World) :
  let w1 := snd (initialize_session_state w) in
  fst (initialize_session_state w) = Ok tt
  /\ tmp w1 = tmp w /\ log w1 = log w
  /\ initialize_session_state w1 = (Ok tt, w1)
  /\ (forall h, history (session_state w) = Some h ->
                history (session_state w1) = Some h)
  /\ (forall g, generated (session_state w) = Some g ->
                generated (session_state w1) = Some g)
  /\ (forall p, past (session_state w) = Some p ->
                past (session_state w1) = Some p)
  /\ (forall k, hf_api_key (session_state w) = Some k ->
                hf_api_key (session_state w1) = Some k)
  /\ (history (session_state w) = None -> history (session_state w1) = Some [])
  /\ (generated (session_state w) = None ->
      generated (session_state w1) = Some [greeting_generated])
  /\ (past (session_state w) = None ->
      past (session_state w1) = Some [greeting_past])
  /\ (hf_api_key (session_state w) = None ->
      hf_api_key (session_state w1) = Some None).
Proof.
  cbn zeta. rewrite !initialize_session_state_run. cbn.
  destruct w as [[oh og op ok] t l]; cbn.
  repeat split; try (intros ? ->; reflexivity); try (intros ->; reflexivity).
Qed.

(** ** The conversation step *)

(** X8.  When ['history'] is bound and the chain answers,
    [conversation_chat] calls the chain once, with the history as it
    is before the turn, returns the chain's answer and appends the
    pair (question, answer) to the list object it was given, which is
    the one in the session; when ['history'] is not bound it raises
    [KeyError] and the chain is not called. *)
Theorem conversation_chat_appends_answer
  (VectorStore : Type)
  (chain_answer : Chain VectorStore -> text -> list (text * text) -> result text)
  (chain : Chain VectorStore) (query : text) (w : World) :
  (forall h a,
      history (session_state w) = Some h ->
      chain_answer chain query h = Ok a ->
      conversation_chat VectorStore chain_answer query chain history_object w
      = (Ok a,
         {| session_state := set_history (h ++ [(query, a)]) (session_state w);
            tmp := tmp w;
            log := log w ++ [chain_called (llm chain) query] |}))
  /\ (history (session_state w) = None ->
      conversation_chat VectorStore chain_answer query chain history_object w
      = (Raise (KeyError "history"), w)).
Proof.
  destruct w as [[oh og op ok] t l]. split.
  - intros h a Hh Ha. cbn in Hh. subst oh.
    unfold conversation_chat, history_object. run_world. rewrite Ha.
    run_world. reflexivity.
  - intros Hh. cbn in Hh. subst oh.
    unfold conversation_chat, history_object. run_world. reflexivity.
Qed.

Lemma conversation_chat_appends_answer_witness :
  history (session_state one_turn_world)
  = Some [(str "What color is the sky?", str "blue")]
  /\ fst (conversation_chat (list Document) answering_chain
            (str "And the grass?") sample_chain history_object one_turn_world)
     = Ok (str "blue")
  /\ history (session_state
                (snd (conversation_chat (list Document) answering_chain
                        (str "And the grass?") sample_chain history_object
                        one_turn_world)))
     = Some [(str "What color is the sky?", str "blue");
             (str "And the grass?", str "blue")].
Proof.
  assert (Hh : history (session_state one_turn_world)
               = Some [(str "What color is the sky?", str "blue")])
    by (vm_compute; reflexivity).
  split; [exact Hh|].
  rewrite (proj1 (conversation_chat_appends_answer (list Document)
                    answering_chain sample_chain (str "And the grass?")
                    one_turn_world)
             [(str "What color is the sky?", str "blue")] (str "blue")
             Hh eq_refl).
  split; reflexivity.
Defined.

(** ** The chain builder, continued *)

(** X13.  [create_conversational_chain] constructs the retrieval model
    first: when that construction raises, the builder raises the same
    exception, whether or not the generation model could be
    constructed, so it can fail where the single-model builder
    returns a chain. *)
Theorem unused_model_failure_aborts_builder
  (VectorStore : Type)
  (hub_validate : text -> option text -> result unit)
  (vector_store : VectorStore) (key : option text) (e : exn) :
  hub_validate (str "google/flan-t5-small") key = Raise e ->
  create_conversational_chain VectorStore hub_validate vector_store key = Raise e
  /\ (hub_validate (str "google/flan-t5-large") key = Ok tt ->
      exists chain,
        create_conversational_chain_generator_only VectorStore hub_validate
          vector_store key = Ok chain).
Proof.
  intros Hsmall. split.
  - unfold create_conversational_chain, HuggingFaceHub. now rewrite Hsmall.
  - intros Hlarge.
    unfold create_conversational_chain_generator_only, HuggingFaceHub.
    rewrite Hlarge. cbn. eauto.
Qed.

Lemma unused_model_failure_aborts_builder_witness :
  small_model_unavailable (str "google/flan-t5-small") (Some (str "hf_token"))
  = Raise (Collaborator 404)
  /\ create_conversational_chain (list Document) small_model_unavailable
       [sky_and_grass] (Some (str "hf_token")) = Raise (Collaborator 404)
  /\ exists chain,
      create_conversational_chain_generator_only (list Document)
        small_model_unavailable [sky_and_grass] (Some (str "hf_token"))
      = Ok chain.
Proof.
  split; [reflexivity|].
  pose proof (unused_model_failure_aborts_builder (list Document)
                small_model_unavailable [sky_and_grass]
                (Some (str "hf_token")) (Collaborator 404) eq_refl) as [H1 H2].
  split; [exact H1 | exact (H2 eq_refl)].
Defined.

(** ** Ingestion of a batch *)

Section Batches.
Variable parse : loader_kind -> nat -> bytes -> result (list Document).

Lemma ingest_file_no_loader file text w :
  is_unsupported file = true ->
  ingest_file parse file text w
  = (Ok text,
     {| session_state := session_state w;
        tmp := <[fresh (dom (tmp w)) := content file]> (tmp w);
        log := log w ++ [tempfile_written (fresh (dom (tmp w)))] |}).
Proof.
  unfold is_unsupported, ingest_file, file_extension.
  destruct (choose_loader _); [discriminate | reflexivity].
Qed.

Lemma ingest_file_supported_cases file text w k :
  choose_loader (file_extension file) = Some k ->
  (exists loaded,
      parse k (fresh (dom (tmp w))) (content file) = Ok loaded
      /\ fst (ingest_file parse file text w) = Ok (text ++ loaded)
      /\ tmp (snd (ingest_file parse file text w)) = tmp w)
  \/ (exists e, fst (ingest_file parse file text w) = Raise e).
Proof.
  intros Hk.
  destruct (parse k (fresh (dom (tmp w))) (content file)) as [loaded|e] eqn:Hp.
  - left. exists loaded. split; [reflexivity|].
    apply (ingest_file_loaded parse file text w k loaded Hk Hp).
  - right. exists e.
    apply (ingest_file_parse_raises parse file text w k e Hk Hp).
Qed.

Lemma ingest_all_unsupported files : forall text w,
  Forall (fun f => is_unsupported f = true) files ->
  exists w',
    ingest_files parse files text w = (Ok text, w')
    /\ session_state w' = session_state w
    /\ size (tmp w') = (size (tmp w) + length files)%nat.
Proof.
  induction files as [|f files IH]; intros text w Hall.
  - exists w. cbn. repeat split; lia.
  - inversion Hall as [|? ? Hf Hrest]; subst.
    cbn [ingest_files]. unfold bind.
    rewrite (ingest_file_no_loader f text w Hf).
    destruct (IH text
                {| session_state := session_state w;
                   tmp := <[fresh (dom (tmp w)) := content f]> (tmp w);
                   log := log w ++ [tempfile_written (fresh (dom (tmp w)))] |}
                Hrest) as (w' & E & Hs & Hsize).
    exists w'. split; [exact E|]. split; [exact Hs|].
    rewrite Hsize. cbn [tmp length].
    rewrite map_size_insert_None by apply fresh_path_unused. lia.
Qed.

End Batches.

(** X4.  A batch in which every file has a loader and every parser
    returns: the segments of the files are appended to the text list
    in upload order, temporary storage is afterwards exactly what it
    was before the batch, and the session is untouched. *)
Theorem supported_batch_loads_in_order
  (parse : loader_kind -> nat -> bytes -> result (list Document))
  (files : list UploadedFile) (text : list Document) (w : World) :
  Forall (fun f => is_Some (loads parse (fresh (dom (tmp w))) f)) files ->
  fst (ingest_files parse files text w)
  = Ok (text ++ concat (map (fun f => default []
                                        (loads parse (fresh (dom (tmp w))) f))
                            files))
  /\ tmp (snd (ingest_files parse files text w)) = tmp w
  /\ session_state (snd (ingest_files parse files text w)) = session_state w.
Proof.
  intros Hall. split; [|split; [|apply frame_ingest_files]].
  - revert text w Hall.
    induction files as [|f files IH]; intros text w Hall;
      cbn [ingest_files map concat].
    + cbn. now rewrite app_nil_r.
    + inversion Hall as [|? ? [loaded Hf] Hrest]; subst.
      rewrite Hf. cbn [default]. unfold loads in Hf.
      destruct (choose_loader (file_extension f)) as [k|] eqn:Hk; [|discriminate].
      destruct (parse k (fresh (dom (tmp w))) (content f)) as [l|e] eqn:Hp;
        [|discriminate].
      injection Hf as ->.
      destruct (ingest_file_loaded parse f text w k loaded Hk Hp) as [E1 E2].
      unfold bind.
      destruct (ingest_file parse f text w) as [[t|e] w1]; cbn in E1, E2;
        [|discriminate].
      injection E1 as ->. rewrite <- E2 in Hrest.
      rewrite (IH _ w1 Hrest). rewrite E2. now rewrite <- app_assoc.
  - revert text w Hall.
    induction files as [|f files IH]; intros text w Hall; cbn; [reflexivity|].
    inversion Hall as [|? ? [loaded Hf] Hrest]; subst.
    unfold loads in Hf.
    destruct (choose_loader (file_extension f)) as [k|] eqn:Hk; [|discriminate].
    destruct (parse k (fresh (dom (tmp w))) (content f)) as [l|e] eqn:Hp;
      [|discriminate].
    destruct (ingest_file_loaded parse f text w k l Hk Hp) as [E1 E2].
    unfold bind.
    destruct (ingest_file parse f text w) as [[t|e] w1]; cbn in E1, E2;
      [|discriminate].
    rewrite <- E2 in Hrest. rewrite (IH _ w1 Hrest). exact E2.
Qed.

Lemma supported_batch_loads_in_order_witness :
  Forall (fun f => is_Some (loads sample_parse (fresh (dom (tmp fresh_world))) f))
    [{| name := str "notes.txt"; content := [] |};
     {| name := str "report.pdf"; content := [] |}]
  /\ tmp (snd (ingest_files sample_parse
                 [{| name := str "notes.txt"; content := [] |};
                  {| name := str "report.pdf"; content := [] |}] []
                 fresh_world))
     = tmp fresh_world.
Proof.
  assert (H : Forall (fun f => is_Some (loads sample_parse
                                          (fresh (dom (tmp fresh_world))) f))
                [{| name := str "notes.txt"; content := [] |};
                 {| name := str "report.pdf"; content := [] |}])
    by (repeat constructor; vm_compute; eauto).
  split; [exact H|].
  exact (proj1 (proj2 (supported_batch_loads_in_order sample_parse _ [] fresh_world H))).
Defined.

(** X5.  When the parser of one file raises, the batch stops there:
    the exception leaves the loop, the file being read stays in
    temporary storage, and the files after it are never written, so
    the outcome does not depend on them. *)
Theorem parse_failure_aborts_batch
  (parse : loader_kind -> nat -> bytes -> result (list Document))
  (before after : list UploadedFile) (file : UploadedFile)
  (text t : list Document) (w w1 : World) (k : loader_kind) (e : exn) :
  ingest_files parse before text w = (Ok t, w1) ->
  choose_loader (file_extension file) = Some k ->
  parse k (fresh (dom (tmp w1))) (content file) = Raise e ->
  fst (ingest_files parse (before ++ file :: after) text w) = Raise e
  /\ ingest_files parse (before ++ file :: after) text w
     = ingest_files parse (before ++ [file]) text w
  /\ tmp (snd (ingest_files parse (before ++ file :: after) text w))
       !! fresh (dom (tmp w1)) = Some (content file).
Proof.
  intros Hbefore Hk Hp.
  destruct (ingest_file_parse_raises parse file t w1 k e Hk Hp) as [E1 E2].
  assert (E : forall rest,
             ingest_files parse (before ++ file :: rest) text w
             = (Raise e, snd (ingest_file parse file t w1))).
  { intros rest. rewrite ingest_files_app. unfold bind. rewrite Hbefore.
    cbn [ingest_files]. unfold bind.
    destruct (ingest_file parse file t w1) as [[t'|e'] w2]; cbn in E1;
      [discriminate|]. now injection E1 as ->. }
  rewrite (E after), (E []). cbn [fst snd]. auto.
Qed.

Lemma parse_failure_aborts_batch_witness :
  fst (ingest_files pdf_failing_parse
         [{| name := str "notes.txt"; content := [] |};
          {| name := str "report.pdf"; content := [] |};
          {| name := str "more.txt"; content := [] |}] [] fresh_world)
  = Raise (Collaborator 1)
  /\ ingest_files pdf_failing_parse
       [{| name := str "notes.txt"; content := [] |};
        {| name := str "report.pdf"; content := [] |};
        {| name := str "more.txt"; content := [] |}] [] fresh_world
     = ingest_files pdf_failing_parse
         [{| name := str "notes.txt"; content := [] |};
          {| name := str "report.pdf"; content := [] |}] [] fresh_world.
Proof.
  pose proof (parse_failure_aborts_batch pdf_failing_parse
                [{| name := str "notes.txt"; content := [] |}]
                [{| name := str "more.txt"; content := [] |}]
                {| name := str "report.pdf"; content := [] |}
                [] _ fresh_world _ PyPDFLoader (Collaborator 1)
                eq_refl eq_refl eq_refl) as (H1 & H2 & _).
  split; [exact H1 | exact H2].
Defined.

(** X6.  A batch that is ingested without an exception leaves in
    temporary storage exactly one more file for every upload that has
    no loader, and nothing else: the files with a loader are removed
    again, the others are not. *)
Theorem temp_storage_grows_by_unsupported
  (parse : loader_kind -> nat -> bytes -> result (list Document))
  (files : list UploadedFile) (text t : list Document) (w : World) :
  fst (ingest_files parse files text w) = Ok t ->
  size (tmp (snd (ingest_files parse files text w)))
  = (size (tmp w) + length (List.filter is_unsupported files))%nat.
Proof.
  revert text w. induction files as [|f files IH]; intros text w Hok.
  - cbn. lia.
  - cbn [ingest_files List.filter] in *. unfold bind in *.
    destruct (is_unsupported f) eqn:Hf.
    + rewrite (ingest_file_no_loader parse f text w Hf) in *.
      rewrite (IH _ _ Hok). cbn [tmp length].
      rewrite map_size_insert_None by apply fresh_path_unused. lia.
    + unfold is_unsupported in Hf.
      destruct (choose_loader (file_extension f)) as [k|] eqn:Hk; [|discriminate].
      destruct (ingest_file_supported_cases parse f text w k Hk)
        as [(loaded & _ & E1 & E2) | (e & E1)];
        destruct (ingest_file parse f text w) as [[t'|e'] w1]; cbn in *;
        try discriminate.
      rewrite (IH _ _ Hok). now rewrite E2.
Qed.

Lemma temp_storage_grows_by_unsupported_witness :
  fst (ingest_files sample_parse
         [{| name := str "notes.txt"; content := [] |};
          {| name := str "table.csv"; content := [] |};
          {| name := str "image.png"; content := [] |}] [] fresh_world)
  = Ok [sky_and_grass_at 0]
  /\ size (tmp (snd (ingest_files sample_parse
                       [{| name := str "notes.txt"; content := [] |};
                        {| name := str "table.csv"; content := [] |};
                        {| name := str "image.png"; content := [] |}] []
                       fresh_world)))
     = 2%nat.
Proof.
  assert (H : fst (ingest_files sample_parse
                     [{| name := str "notes.txt"; content := [] |};
                      {| name := str "table.csv"; content := [] |};
                      {| name := str "image.png"; content := [] |}] []
                     fresh_world) = Ok [sky_and_grass_at 0])
    by (vm_compute; reflexivity).
  split; [exact H|].
  rewrite (temp_storage_grows_by_unsupported sample_parse _ [] _ fresh_world H).
  reflexivity.
Defined.

(** ** Whole runs, continued *)

Section MoreRuns.
Variable parse : loader_kind -> nat -> bytes -> result (list Document).
Variable VectorStore : Type.
Variable FAISS_from_documents : list Document -> result VectorStore.
Variable hub_validate : text -> option text -> result unit.
Variable chain_answer : Chain VectorStore -> text -> list (text * text) -> result text.

Local Abbreviation main' :=
  (main parse VectorStore FAISS_from_documents hub_validate chain_answer).
Local Abbreviation process_documents' :=
  (process_documents parse VectorStore FAISS_from_documents hub_validate
     chain_answer).
Local Abbreviation display_chat_history' :=
  (display_chat_history VectorStore chain_answer).

Lemma process_documents_no_uploads inp w :
  uploaded_files inp = [] ->
  process_documents' inp w
  = (Ok tt,
     {| session_state := session_state w; tmp := tmp w;
        log := log w ++ [st_sidebar_title (str "Document Processing");
                         st_sidebar_file_uploader] |}).
Proof.
  intros Hfiles. unfold process_documents. rewrite Hfiles.
  unfold bind, emit, ret. cbn. now rewrite <- app_assoc.
Qed.

Lemma process_documents_all_unsupported inp w e :
  uploaded_files inp <> [] ->
  Forall (fun f => is_unsupported f = true) (uploaded_files inp) ->
  FAISS_from_documents [] = Raise e ->
  exists w',
    process_documents' inp w = (Raise e, w')
    /\ session_state w' = session_state w
    /\ size (tmp w') = (size (tmp w) + length (uploaded_files inp))%nat.
Proof.
  intros Hne Hall HF. unfold process_documents.
  destruct (uploaded_files inp) as [|f fs] eqn:Hfiles; [congruence|].
  unfold bind at 1. cbn [emit]. unfold bind at 1. cbn [emit].
  unfold bind at 1.
  match goal with
  | |- context [ingest_files parse (f :: fs) [] ?w0] =>
      destruct (ingest_all_unsupported parse (f :: fs) [] w0 Hall)
        as (w' & E & Hs & Hsize)
  end.
  rewrite E. unfold bind, lift, emit. cbn. rewrite HF.
  cbn in Hs, Hsize. eexists. split; [reflexivity|].
  split; [exact Hs | exact Hsize].
Qed.

(** The stored credential is not touched below the credential check. *)
Lemma display_keeps_key k chain inp :
  preserves (fun s => hf_api_key s = k) (display_chat_history' chain inp).
Proof.
  intros w Hk.
  destruct (submit_button inp && truthy_str (user_input inp)) eqn:Hc.
  - unfold display_chat_history. rewrite Hc.
    destruct w as [[oh og op ok] t l]. cbn in Hk.
    unfold conversation_chat, history_object, past_object, generated_object.
    run_world.
    destruct oh as [h|]; run_world; [|exact Hk].
    destruct (chain_answer chain (user_input inp) h) as [a|e]; run_world;
      [|exact Hk].
    destruct op as [p|]; run_world; [|exact Hk].
    destruct og as [g|]; run_world; [|exact Hk].
    rewrite frame_render_transcript. exact Hk.
  - rewrite (proj1 (display_no_question _ chain_answer chain inp Hc w)).
    exact Hk.
Qed.

Lemma process_documents_keeps_key k inp :
  preserves (fun s => hf_api_key s = k) (process_documents' inp).
Proof.
  unfold process_documents.
  apply preserves_bind; [apply frame_preserves; auto with frames | intros _].
  apply preserves_bind; [apply frame_preserves; auto with frames | intros _].
  destruct (uploaded_files inp) as [|f files];
    [apply frame_preserves; auto with frames|].
  apply preserves_bind;
    [apply frame_preserves, frame_ingest_files | intros text].
  apply preserves_bind; [apply frame_preserves; auto with frames | intros ?].
  apply preserves_bind; [apply frame_preserves; auto with frames | intros _].
  apply preserves_bind; [apply frame_preserves; auto with frames | intros ?].
  apply preserves_bind; [apply frame_preserves; auto with frames | intros ?].
  apply preserves_bind; [apply frame_preserves; auto with frames | intros _].
  apply preserves_bind; [apply frame_preserves; auto with frames | intros ?].
  apply preserves_bind; [apply frame_preserves; auto with frames | intros chain].
  apply preserves_bind; [apply frame_preserves; auto with frames | intros _].
  apply display_keeps_key.
Qed.

(** An answered question on aligned lists: the call returns. *)
Lemma display_turn_answered_ok chain inp w h g p a :
  history (session_state w) = Some h ->
  generated (session_state w) = Some g ->
  past (session_state w) = Some p ->
  length p = length g ->
  submit_button inp = true ->
  truthy_str (user_input inp) = true ->
  chain_answer chain (user_input inp) h = Ok a ->
  fst (display_chat_history' chain inp w) = Ok tt.
Proof.
  intros Hh Hg Hp Hlen Hs Hq Ha. unfold display_chat_history.
  rewrite Hs, Hq. cbn [andb].
  destruct w as [[oh og op k] t l]. cbn in Hh, Hg, Hp. subst oh og op.
  unfold conversation_chat, history_object, past_object, generated_object.
  run_world. rewrite Ha. run_world.
  eapply render_transcript_ok; cbn; try reflexivity.
  rewrite !length_app. cbn. lia.
Qed.

Lemma display_cases_strict chain inp w :
  transcript_consistent (session_state w) ->
  let r := display_chat_history' chain inp w in
  (session_state (snd r) = session_state w
   /\ (submit_button inp && truthy_str (user_input inp) = false
       \/ exists e, fst r = Raise e))
  \/ (turn_added (user_input inp) (session_state w) (session_state (snd r))
      /\ fst r = Ok tt
      /\ submit_button inp && truthy_str (user_input inp) = true).
Proof.
  intros (h & g & p & Hh & Hg & Hp & Hpg & _). cbn zeta.
  destruct (submit_button inp && truthy_str (user_input inp)) eqn:Hc.
  - apply andb_true_iff in Hc as [Hs Hq].
    destruct (chain_answer chain (user_input inp) h) as [a|e] eqn:Ha.
    + right. split; [|split; [|reflexivity]].
      * exists h, g, p, a.
        rewrite (display_turn_answered _ chain_answer chain inp w h g p a);
          auto.
        cbn. repeat split; assumption.
      * now apply (display_turn_answered_ok chain inp w h g p a).
    + left.
      destruct (display_turn_failed _ chain_answer chain inp w h e)
        as [E1 E2]; eauto.
  - left. split; [|now left].
    apply (display_no_question _ chain_answer chain inp Hc w).
Qed.

Lemma post_process_documents_strict inp s0 :
  transcript_consistent s0 ->
  post (same_lists s0)
       (run_outcome (question_ready inp) (user_input inp) s0)
       (process_documents' inp).
Proof.
  intros Hcons.
  assert (Hraise : forall e s, same_lists s0 s ->
            run_outcome (question_ready inp) (user_input inp) s0 (Raise e) s)
    by (intros e s Hs; left; eauto).
  unfold process_documents.
  apply post_frame_bind; [assumption | auto with frames | intros _].
  apply post_frame_bind; [assumption | auto with frames | intros _].
  destruct (uploaded_files inp) as [|f files] eqn:Hfiles.
  { intros w Hw. left. split; [exact Hw|]. left.
    unfold question_ready. now rewrite Hfiles. }
  apply post_frame_bind; [assumption | apply frame_ingest_files | intros text].
  apply post_frame_bind; [assumption | auto with frames | intros text_splitter].
  apply post_frame_bind; [assumption | auto with frames | intros _].
  apply post_frame_bind; [assumption | auto with frames | intros text_chunks].
  apply post_frame_bind; [assumption | auto with frames | intros vector_store].
  apply post_frame_bind; [assumption | auto with frames | intros _].
  apply post_frame_bind; [assumption | auto with frames | intros key].
  apply post_frame_bind; [assumption | auto with frames | intros chain].
  apply post_frame_bind; [assumption | auto with frames | intros _].
  intros w Hsame.
  assert (Hw : transcript_consistent (session_state w))
    by (eapply same_lists_consistent; eassumption).
  assert (Hready : question_ready inp
                   = submit_button inp && truthy_str (user_input inp))
    by (unfold question_ready; now rewrite Hfiles).
  destruct Hsame as (Eh & Eg & Ep).
  destruct (display_cases_strict chain inp w Hw)
    as [[E Hwhy] | ((h & g & p & a & Hh & Hg & Hp & Eh' & Eg' & Ep') & Hok & Hc)].
  - left. split; [rewrite E; repeat split; assumption|].
    destruct Hwhy as [Hc | He]; [left; congruence | now right].
  - right. split; [|split; [exact Hok | congruence]].
    exists h, g, p, a. repeat split; congruence.
Qed.

(** A run from aligned lists is all or nothing for the transcript. *)
Lemma main_outcome_strict inp w :
  lists_aligned (session_state w) ->
  run_outcome (asks inp (session_state w)) (user_input inp)
    (initialized (session_state w))
    (fst (main' inp w)) (session_state (snd (main' inp w))).
Proof.
  intros Haligned.
  pose proof (initialized_consistent _ Haligned) as Hcons.
  set (s0 := initialized (session_state w)) in *.
  assert (Hcred : forall r s',
             run_outcome (question_ready inp) (user_input inp) s0 r s' ->
             run_outcome (true && question_ready inp) (user_input inp) s0 r s')
    by (intros r s' H; exact H).
  rewrite main_run. fold s0. unfold asks. cbn zeta.
  destruct (stored_credential (session_state w)); cbn [orb].
  - apply Hcred. apply (post_process_documents_strict inp s0 Hcons).
    cbn. repeat split.
  - destruct (truthy_str (token_input inp)) eqn:Htok.
    + apply Hcred. apply (post_process_documents_strict inp s0 Hcons).
      cbn. repeat split.
    + cbn. left. split; [repeat split | now left].
Qed.

Lemma same_lists_mirrors s s' :
  same_lists s s' -> transcript_mirrors s -> transcript_mirrors s'.
Proof.
  intros (Eh & Eg & Ep) (h & Hh & Hp & Hg).
  exists h. rewrite Eh, Eg, Ep. tauto.
Qed.

Lemma turn_added_mirrors q s s' :
  turn_added q s s' -> transcript_mirrors s -> transcript_mirrors s'.
Proof.
  intros (h & g & p & a & Hh & Hg & Hp & Eh & Eg & Ep) (h' & Hh' & Hp' & Hg').
  assert (h' = h) as -> by congruence.
  exists (h ++ [(q, a)]). rewrite Eh, Eg, Ep. split; [reflexivity|].
  rewrite !map_app. cbn.
  assert (p = greeting_past :: map fst h) as -> by congruence.
  assert (g = greeting_generated :: map snd h) as -> by congruence.
  split; reflexivity.
Qed.

Lemma initialized_same_lists s h g p :
  history s = Some h -> generated s = Some g -> past s = Some p ->
  same_lists s (initialized s).
Proof.
  intros Hh Hg Hp. unfold same_lists, initialized. cbn.
  now rewrite Hh, Hg, Hp.
Qed.

End MoreRuns.

(** X2.  The credential is asked for once: when a credential is stored,
    no run of [main] changes it, whatever the run does and however it
    ends; when none is stored, the run stores what was typed into the
    prompt (the empty string if nothing was). *)
Theorem credential_kept_for_the_session
  (parse : loader_kind -> nat -> bytes -> result (list Document))
  (VectorStore : Type)
  (FAISS_from_documents : list Document -> result VectorStore)
  (hub_validate : text -> option text -> result unit)
  (chain_answer : Chain VectorStore -> text -> list (text * text) -> result text)
  (inp : Inputs) (w : World) :
  let w' :=
    snd (main parse VectorStore FAISS_from_documents hub_validate chain_answer
           inp w) in
  (stored_credential (session_state w) = true ->
   hf_api_key (session_state w') = hf_api_key (session_state w))
  /\ (stored_credential (session_state w) = false ->
      hf_api_key (session_state w') = Some (Some (token_input inp))).
Proof.
  cbn zeta. rewrite main_run. cbn zeta. split; intros Hkey; rewrite Hkey.
  - apply (process_documents_keeps_key parse VectorStore FAISS_from_documents
             hub_validate chain_answer _ inp).
    cbn. unfold stored_credential in Hkey.
    destruct (hf_api_key (session_state w)) as [[k|]|]; try discriminate.
    reflexivity.
  - destruct (truthy_str (token_input inp)); [|reflexivity].
    apply (process_documents_keeps_key parse VectorStore FAISS_from_documents
             hub_validate chain_answer _ inp).
    reflexivity.
Qed.

Lemma credential_kept_for_the_session_witness :
  stored_credential (session_state one_turn_world) = true
  /\ hf_api_key (session_state (snd (sample_main nothing_typed one_turn_world)))
     = hf_api_key (session_state one_turn_world)
  /\ stored_credential (session_state fresh_world) = false
  /\ hf_api_key (session_state (snd (sample_main token_only fresh_world)))
     = Some (Some (str "hf_token")).
Proof.
  split; [vm_compute; reflexivity|].
  split.
  - apply (proj1 (credential_kept_for_the_session sample_parse (list Document)
                    sample_index sample_hub answering_chain nothing_typed
                    one_turn_world)).
    vm_compute. reflexivity.
  - split; [reflexivity|].
    apply (proj2 (credential_kept_for_the_session sample_parse (list Document)
                    sample_index sample_hub answering_chain token_only
                    fresh_world)).
    reflexivity.
Defined.

(** X3.  With a credential but no uploaded file [main] returns after
    the sidebar: it renders the title, the prompt if no credential was
    stored, the sidebar title and the uploader, and nothing else; the
    question form and the transcript are not rendered and a submitted
    question is ignored. *)
Theorem no_upload_no_chat
  (parse : loader_kind -> nat -> bytes -> result (list Document))
  (VectorStore : Type)
  (FAISS_from_documents : list Document -> result VectorStore)
  (hub_validate : text -> option text -> result unit)
  (chain_answer : Chain VectorStore -> text -> list (text * text) -> result text)
  (inp : Inputs) (w : World) :
  stored_credential (session_state w) || truthy_str (token_input inp) = true ->
  uploaded_files inp = [] ->
  let w' :=
    snd (main parse VectorStore FAISS_from_documents hub_validate chain_answer
           inp w) in
  fst (main parse VectorStore FAISS_from_documents hub_validate chain_answer
         inp w) = Ok tt
  /\ tmp w' = tmp w
  /\ same_lists (initialized (session_state w)) (session_state w')
  /\ log w'
     = log w
       ++ [st_title (str "Multi-Docs ChatBot using Two Models (Retriever + Generator)")]
       ++ (if stored_credential (session_state w) then []
           else [st_text_input (str "Enter your Hugging Face API token:")])
       ++ [st_sidebar_title (str "Document Processing");
           st_sidebar_file_uploader].
Proof.
  intros Hcred Hfiles. cbn zeta. rewrite main_run. cbn zeta.
  destruct (stored_credential (session_state w)); cbn [orb] in Hcred.
  - rewrite process_documents_no_uploads by assumption. cbn.
    rewrite <- !app_assoc. repeat split; reflexivity.
  - rewrite Hcred. rewrite process_documents_no_uploads by assumption. cbn.
    rewrite <- !app_assoc. repeat split; reflexivity.
Qed.

Lemma no_upload_no_chat_witness :
  stored_credential (session_state fresh_world)
  || truthy_str (token_input token_only) = true
  /\ uploaded_files token_only = []
  /\ fst (sample_main token_only fresh_world) = Ok tt
  /\ tmp (snd (sample_main token_only fresh_world)) = tmp fresh_world.
Proof.
  split; [reflexivity|]. split; [reflexivity|].
  pose proof (no_upload_no_chat sample_parse (list Document) sample_index
                sample_hub answering_chain token_only fresh_world
                eq_refl eq_refl) as H.
  cbn zeta in H. split; [exact (proj1 H) | exact (proj1 (proj2 H))].
Defined.

(** X7.  When every upload of a non-empty batch has an extension
    without a loader, [main] still goes on to split and index: the
    index build is called with the empty chunk list, and if it raises
    on it the run raises that exception; the transcript lists are
    untouched and every upload of the batch is left in temporary
    storage. *)
Theorem unsupported_batch_reaches_index_empty
  (parse : loader_kind -> nat -> bytes -> result (list Document))
  (VectorStore : Type)
  (FAISS_from_documents : list Document -> result VectorStore)
  (hub_validate : text -> option text -> result unit)
  (chain_answer : Chain VectorStore -> text -> list (text * text) -> result text)
  (inp : Inputs) (w : World) (e : exn) :
  stored_credential (session_state w) || truthy_str (token_input inp) = true ->
  uploaded_files inp <> [] ->
  Forall (fun f => is_unsupported f = true) (uploaded_files inp) ->
  FAISS_from_documents [] = Raise e ->
  let w' :=
    snd (main parse VectorStore FAISS_from_documents hub_validate chain_answer
           inp w) in
  fst (main parse VectorStore FAISS_from_documents hub_validate chain_answer
         inp w) = Raise e
  /\ same_lists (initialized (session_state w)) (session_state w')
  /\ size (tmp w') = (size (tmp w) + length (uploaded_files inp))%nat.
Proof.
  intros Hcred Hne Hall HF. cbn zeta. rewrite main_run. cbn zeta.
  destruct (stored_credential (session_state w)); cbn [orb] in Hcred;
    [|rewrite Hcred];
    match goal with
    | |- context [process_documents _ _ _ _ _ inp ?w0] =>
        destruct (process_documents_all_unsupported parse VectorStore
                    FAISS_from_documents hub_validate chain_answer inp w0 e
                    Hne Hall HF) as (w' & E & Hs & Hsize)
    end;
    rewrite E; cbn [fst snd]; cbn in Hs, Hsize; rewrite Hs;
    (split; [reflexivity|]); (split; [repeat split | exact Hsize]).
Qed.

Lemma unsupported_batch_reaches_index_empty_witness :
  fst (sample_main csv_only fresh_world) = Raise IndexError
  /\ size (tmp (snd (sample_main csv_only fresh_world))) = 1%nat.
Proof.
  pose proof (unsupported_batch_reaches_index_empty sample_parse (list Document)
                sample_index sample_hub answering_chain csv_only fresh_world
                IndexError eq_refl ltac:(discriminate)
                ltac:(repeat constructor) eq_refl) as H.
  cbn zeta in H. split; [exact (proj1 H) | exact (proj2 (proj2 H))].
Defined.

(** X9.  A run of [main] is all or nothing for the transcript: from a
    session whose lists are aligned, either the run put a question to
    the chain, returned normally and appended one turn to [history],
    [past] and [generated], or it left the three lists as
    [initialize_session_state] gives them; in particular a run that
    raises records nothing. *)
Theorem run_records_turn_or_nothing
  (parse : loader_kind -> nat -> bytes -> result (list Document))
  (VectorStore : Type)
  (FAISS_from_documents : list Document -> result VectorStore)
  (hub_validate : text -> option text -> result unit)
  (chain_answer : Chain VectorStore -> text -> list (text * text) -> result text)
  (inp : Inputs) (w : World) :
  lists_aligned (session_state w) ->
  let r :=
    main parse VectorStore FAISS_from_documents hub_validate chain_answer
      inp w in
  run_outcome (asks inp (session_state w)) (user_input inp)
    (initialized (session_state w)) (fst r) (session_state (snd r))
  /\ (forall e, fst r = Raise e ->
                same_lists (initialized (session_state w)) (session_state (snd r))).
Proof.
  intros Haligned. cbn zeta.
  pose proof (main_outcome_strict parse VectorStore FAISS_from_documents
                hub_validate chain_answer inp w Haligned) as Hout.
  split; [exact Hout|].
  intros e He. destruct Hout as [[Hsame _] | (_ & Hok & _)]; [exact Hsame|].
  congruence.
Qed.

Lemma run_records_turn_or_nothing_witness :
  lists_aligned (session_state one_turn_world)
  /\ run_outcome (asks grass_question (session_state one_turn_world))
       (user_input grass_question)
       (initialized (session_state one_turn_world))
       (fst (sample_main grass_question one_turn_world))
       (session_state (snd (sample_main grass_question one_turn_world))).
Proof.
  assert (H : lists_aligned (session_state one_turn_world))
    by (vm_compute; auto).
  split; [exact H|].
  exact (proj1 (run_records_turn_or_nothing sample_parse (list Document)
                  sample_index sample_hub answering_chain grass_question
                  one_turn_world H)).
Defined.

(** X10.  In every reachable session the transcript mirrors the
    history: once initialised, [past] is the greeting followed by the
    questions of [history] and [generated] is the greeting followed by
    its answers, in the same order. *)
Theorem transcript_mirrors_history
  (parse : loader_kind -> nat -> bytes -> result (list Document))
  (VectorStore : Type)
  (FAISS_from_documents : list Document -> result VectorStore)
  (hub_validate : text -> option text -> result unit)
  (chain_answer : Chain VectorStore -> text -> list (text * text) -> result text)
  (w : World) :
  reachable parse VectorStore FAISS_from_documents hub_validate chain_answer w ->
  transcript_mirrors (initialized (session_state w)).
Proof.
  intros Hreach. induction Hreach as [t l | inp w Hreach IH].
  - exists []. cbn. repeat split; reflexivity.
  - assert (Hnext : transcript_mirrors
                      (session_state
                         (snd (main parse VectorStore FAISS_from_documents
                                 hub_validate chain_answer inp w)))).
    { destruct (main_outcome parse VectorStore FAISS_from_documents hub_validate
                  chain_answer inp w) as [[Hsame _] | Hturn].
      - eapply same_lists_mirrors; eassumption.
      - eapply turn_added_mirrors; eassumption. }
    pose proof Hnext as (h & Hh & Hp & Hg).
    eapply same_lists_mirrors; [|exact Hnext].
    eapply initialized_same_lists; eassumption.
Qed.

Lemma transcript_mirrors_history_witness :
  reachable sample_parse (list Document) sample_index sample_hub
    answering_chain one_turn_world
  /\ transcript_mirrors (initialized (session_state one_turn_world)).
Proof.
  assert (Hreach : reachable sample_parse (list Document) sample_index
                     sample_hub answering_chain one_turn_world)
    by exact (reach_run _ _ _ _ _ sky_question fresh_world
                (reach_new _ _ _ _ _ ∅ [])).
  split; [exact Hreach|].
  exact (transcript_mirrors_history sample_parse (list Document) sample_index
           sample_hub answering_chain one_turn_world Hreach).
Defined.

(** ** The transcript *)

Lemma world_log_nil (w : World) :
  {| session_state := session_state w; tmp := tmp w; log := log w ++ [] |} = w.
Proof. destruct w. cbn. now rewrite app_nil_r. Qed.

Lemma transcript_from_nil_l i g : transcript_from i [] g = [].
Proof. reflexivity. Qed.

Lemma transcript_from_nil_r i p : transcript_from i p [] = [].
Proof. now destruct p. Qed.

(** The loop over the indices [i], ..., [i + n - 1], where [i + n] is
    the length of [generated] and [past] has at least [i] entries. *)
Lemma render_messages_run (g p : list text) : forall n i w,
  generated (session_state w) = Some g ->
  past (session_state w) = Some p ->
  (i + n)%nat = length g ->
  (i <= length p)%nat ->
  render_messages (seq i n) w
  = (if bool_decide (i + n <= length p)%nat then Ok tt else Raise IndexError,
     {| session_state := session_state w; tmp := tmp w;
        log := log w ++ transcript_from i (drop i p) (drop i g) |}).
Proof.
  induction n as [|n IH]; intros i w Hg Hp Hlen Hi.
  - cbn [seq render_messages]. rewrite bool_decide_eq_true_2 by lia.
    rewrite (drop_ge g) by lia. rewrite transcript_from_nil_r.
    now rewrite world_log_nil.
  - cbn [seq render_messages].
    destruct w as [[oh og op ok] t l]. cbn in Hg, Hp. subst og op.
    destruct (p !! i) as [q|] eqn:Hq.
    + assert (Hip : (i < length p)%nat) by (eapply lookup_lt_Some; eassumption).
      destruct (lookup_lt_is_Some_2 g i ltac:(lia)) as [a Ha].
      run_world. rewrite Hq. cbn. rewrite Ha. cbn.
      rewrite IH; cbn; try reflexivity; try lia.
      rewrite (drop_S p q i Hq), (drop_S g a i Ha). cbn.
      rewrite <- !app_assoc. cbn.
      destruct (bool_decide (S (i + n) <= length p)%nat) eqn:E1;
        destruct (bool_decide (i + S n <= length p)%nat) eqn:E2;
        try reflexivity;
        [apply bool_decide_eq_true_1 in E1; apply bool_decide_eq_false_1 in E2
        |apply bool_decide_eq_false_1 in E1; apply bool_decide_eq_true_1 in E2];
        lia.
    + assert (Hip : (length p <= i)%nat) by (eapply lookup_ge_None; eassumption).
      run_world. rewrite Hq. cbn.
      rewrite bool_decide_eq_false_2 by lia.
      rewrite (drop_ge p) by lia. cbn. now rewrite app_nil_r.
Qed.

Lemma render_transcript_run w g p :
  generated (session_state w) = Some g ->
  past (session_state w) = Some p ->
  render_transcript w
  = (if bool_decide (length g <= length p)%nat then Ok tt else Raise IndexError,
     {| session_state := session_state w; tmp := tmp w;
        log := log w ++ transcript_from 0 p g |}).
Proof.
  intros Hg Hp. unfold render_transcript, getitem, get_session, bind.
  rewrite Hg. cbn [ret].
  destruct g as [|a g'].
  - cbn [length]. rewrite bool_decide_eq_true_2 by lia.
    rewrite transcript_from_nil_r. now rewrite world_log_nil.
  - rewrite (render_messages_run (a :: g') p (length (a :: g')) 0 w Hg Hp);
      [reflexivity | reflexivity | lia].
Qed.

(** X11.  The transcript loop renders, for every index below
    [len(generated)] in order, the entry of [past] as the user's
    message followed by the entry of [generated]; it returns when
    [past] is at least as long as [generated] and otherwise raises
    [IndexError] after the pairs it could render; it changes neither
    the session nor temporary storage.  With ['generated'] unbound it
    raises [KeyError] and renders nothing. *)
Theorem transcript_shows_pairs_in_order (w : World) :
  (forall g p,
      generated (session_state w) = Some g ->
      past (session_state w) = Some p ->
      render_transcript w
      = (if bool_decide (length g <= length p)%nat
         then Ok tt else Raise IndexError,
         {| session_state := session_state w; tmp := tmp w;
            log := log w ++ transcript_from 0 p g |}))
  /\ (generated (session_state w) = None ->
      render_transcript w = (Raise (KeyError "generated"), w)).
Proof.
  split.
  - intros g p. apply render_transcript_run.
  - intros Hg. unfold render_transcript, getitem, get_session, bind.
    now rewrite Hg.
Qed.

Lemma transcript_shows_pairs_in_order_witness :
  render_transcript one_turn_world
  = (Ok tt,
     {| session_state := session_state one_turn_world;
        tmp := tmp one_turn_world;
        log := log one_turn_world
               ++ [message greeting_past true (str "0_user");
                   message greeting_generated false (str "0");
                   message (str "What color is the sky?") true (str "1_user");
                   message (str "blue") false (str "1")] |}).
Proof.
  rewrite (proj1 (transcript_shows_pairs_in_order one_turn_world)
             [greeting_generated; str "blue"]
             [greeting_past; str "What color is the sky?"]);
    vm_compute; reflexivity.
Defined.

(** *** Message keys *)

Lemma pretty_N_char_digit x : is_digit_code (N_of_ascii (pretty_N_char x)).
Proof.
  unfold pretty_N_char, is_digit_code.
  destruct x as [|p]; [cbn; lia|].
  do 4 (try destruct p as [p|p|]); cbn; lia.
Qed.

Lemma pretty_N_go_digits x : forall s,
  Forall is_digit_code (str s) -> Forall is_digit_code (str (pretty_N_go x s)).
Proof.
  induction (N.lt_wf_0 x) as [x _ IH]; intros s Hs.
  assert (x = 0 \/ 0 < x)%N as [->|Hpos] by lia.
  - now rewrite pretty_N_go_0.
  - rewrite pretty_N_go_step by assumption.
    apply IH; [now apply N.div_lt|].
    unfold str. cbn. constructor; [apply pretty_N_char_digit | exact Hs].
Qed.

Lemma pretty_nat_digits (i : nat) : Forall is_digit_code (str (pretty i)).
Proof.
  unfold pretty, pretty_nat, pretty, pretty_N.
  case_decide.
  - unfold str, is_digit_code. cbn. constructor; [lia | constructor].
  - apply pretty_N_go_digits. constructor.
Qed.

Lemma str_inj s1 s2 : str s1 = str s2 -> s1 = s2.
Proof.
  unfold str. intros H.
  rewrite <- (string_of_list_ascii_of_string s1),
          <- (string_of_list_ascii_of_string s2).
  f_equal. revert H.
  generalize (list_ascii_of_string s1), (list_ascii_of_string s2).
  induction l as [|a l IH]; intros [|b k] H; try discriminate; [reflexivity|].
  cbn in H. injection H as Hab Hlk. f_equal; [|now apply IH].
  rewrite <- (ascii_N_embedding a), <- (ascii_N_embedding b). now rewrite Hab.
Qed.

Lemma user_key_inj (i j : nat) :
  str (pretty i) ++ str "_user" = str (pretty j) ++ str "_user" -> i = j.
Proof.
  intros H. apply app_inv_tail in H. apply str_inj in H.
  now apply (inj pretty) in H.
Qed.

Lemma plain_key_inj (i j : nat) : str (pretty i) = str (pretty j) -> i = j.
Proof. intros H. apply str_inj in H. now apply (inj pretty) in H. Qed.

Lemma user_key_not_plain (i j : nat) :
  str (pretty i) ++ str "_user" <> str (pretty j).
Proof.
  intros H.
  assert (Hin : In 95%N (str (pretty j))).
  { rewrite <- H. apply in_or_app. right. cbn. now left. }
  pose proof (pretty_nat_digits j) as Hd.
  rewrite Forall_forall in Hd.
  apply list_elem_of_In, Hd in Hin. unfold is_digit_code in Hin. lia.
Qed.

Lemma transcript_keys_from i p g key :
  In key (omap message_key (transcript_from i p g)) ->
  exists j, (i <= j)%nat
            /\ (key = str (pretty j) ++ str "_user" \/ key = str (pretty j)).
Proof.
  revert i g. induction p as [|q p IH]; intros i [|a g]; cbn; try tauto.
  intros [<- | [<- | Hin]].
  - exists i. split; [lia | now left].
  - exists i. split; [lia | now right].
  - destruct (IH _ _ Hin) as (j & Hj & Hkey). exists j. split; [lia | exact Hkey].
Qed.

Lemma transcript_keys_nodup i p g :
  NoDup (omap message_key (transcript_from i p g)).
Proof.
  revert i g. induction p as [|q p IH]; intros i [|a g]; cbn;
    try apply NoDup_nil_2.
  apply NoDup_cons. split.
  - rewrite list_elem_of_In. intros [E | Hin].
    + symmetry in E. now apply user_key_not_plain in E.
    + apply transcript_keys_from in Hin as (j & Hj & [E | E]).
      * apply user_key_inj in E. lia.
      * now apply user_key_not_plain in E.
  - apply NoDup_cons. split; [|apply IH].
    rewrite list_elem_of_In. intros Hin.
    apply transcript_keys_from in Hin as (j & Hj & [E | E]).
    + symmetry in E. now apply user_key_not_plain in E.
    + apply plain_key_inj in E. lia.
Qed.

Lemma transcript_from_messages p : forall g i,
  Forall is_message (transcript_from i p g).
Proof.
  induction p as [|q p IH]; intros [|a g] i; cbn; try constructor; cbn; auto.
  constructor; cbn; auto.
Qed.

(** X12.  The keys given to the messages of one rendering of the
    transcript are pairwise distinct, whatever the session holds: the
    events the loop adds are messages only, and no key occurs twice
    among them. *)
Theorem transcript_message_keys_distinct (w : World) :
  exists evs,
    log (snd (render_transcript w)) = log w ++ evs
    /\ Forall is_message evs
    /\ NoDup (omap message_key evs).
Proof.
  destruct (generated (session_state w)) as [g|] eqn:Hg.
  - destruct (past (session_state w)) as [p|] eqn:Hp.
    + rewrite (render_transcript_run w g p Hg Hp). cbn.
      exists (transcript_from 0 p g). split; [reflexivity|].
      split; [apply transcript_from_messages | apply transcript_keys_nodup].
    + exists []. rewrite app_nil_r. split; [|split; [constructor|apply NoDup_nil_2]].
      destruct w as [[oh og op ok] t l]. cbn in Hg, Hp. subst og op.
      unfold render_transcript. run_ops. destruct g as [|a g]; [reflexivity|].
      cbn. reflexivity.
  - exists []. rewrite app_nil_r. split; [|split; [constructor|apply NoDup_nil_2]].
    unfold render_transcript, getitem, get_session, bind. now rewrite Hg.
Qed.


(** ** The chunker, continued *)

Module TextSplitterChunks.
Import TextSplitter TextSplitterFacts.

Lemma lstrip_head s :
  lstrip s = [] \/ exists c r, lstrip s = c :: r /\ isspace c = false.
Proof.
  induction s as [|c s IH]; [now left|]. cbn.
  destruct (isspace c) eqn:E; [exact IH | right; eauto].
Qed.

Lemma lstrip_snoc s c : isspace c = false -> lstrip (s ++ [c]) = lstrip s ++ [c].
Proof.
  intros Hc. induction s as [|x s IH]; cbn; [now rewrite Hc|].
  destruct (isspace x); [exact IH | reflexivity].
Qed.

Lemma strip_trimmed t : strip t = [] \/ trimmed (strip t).
Proof.
  unfold strip, rstrip.
  destruct (lstrip_head t) as [-> | (c & r & -> & Hc)]; [now left|].
  right. cbn [rev]. rewrite (lstrip_snoc _ c Hc), rev_app_distr. cbn [rev app].
  split; [exact Hc|].
  cbn [rev]. rewrite rev_involutive.
  destruct (lstrip_head (rev r)) as [-> | (c' & r' & -> & Hc')]; cbn;
    assumption.
Qed.

Lemma join_docs_trimmed cur sep c : _join_docs cur sep = Some c -> trimmed c.
Proof.
  unfold _join_docs.
  destruct (strip_trimmed (join sep cur)) as [E | Ht].
  - rewrite E. discriminate.
  - destruct (strip (join sep cur)) as [|x t] eqn:E; [discriminate|].
    now intros [= <-].
Qed.

Lemma append_doc_trimmed ds cur sep :
  Forall trimmed ds -> Forall trimmed (append_doc ds (_join_docs cur sep)).
Proof.
  intros Hds. unfold append_doc.
  destruct (_join_docs cur sep) as [c|] eqn:E; [|exact Hds].
  apply Forall_app; split; [exact Hds|].
  constructor; [eapply join_docs_trimmed; eassumption | constructor].
Qed.

Lemma merge_step_trimmed cfg sep st d st' :
  merge_step cfg sep st d = Ok st' ->
  Forall trimmed (docs st) -> Forall trimmed (docs st').
Proof.
  unfold merge_step. intros H Hds.
  destruct (chunk_size cfg <? _) in H.
  - destruct (0 <? len (current_doc st)) in H.
    + destruct (pop_front cfg _ _ _ _) as [[cur tot]|e] in H; cbn in H;
        [|discriminate].
      injection H as <-. cbn. now apply append_doc_trimmed.
    + cbn in H. injection H as <-. exact Hds.
  - cbn in H. injection H as <-. exact Hds.
Qed.

Lemma merge_loop_trimmed cfg sep splits : forall st st',
  merge_loop cfg sep st splits = Ok st' ->
  Forall trimmed (docs st) -> Forall trimmed (docs st').
Proof.
  induction splits as [|d splits IH]; intros st st' H Hds; cbn in H.
  - now injection H as <-.
  - destruct (merge_step cfg sep st d) as [st1|e] eqn:E; cbn in H;
      [|discriminate].
    eapply IH; [exact H|]. eapply merge_step_trimmed; eassumption.
Qed.

Lemma split_text_trimmed cfg s chunks :
  split_text cfg s = Ok chunks -> Forall trimmed chunks.
Proof.
  unfold split_text, _merge_splits. intros H.
  destruct (merge_loop cfg _ _ _) as [st|e] eqn:E; cbn in H; [|discriminate].
  injection H as <-. apply append_doc_trimmed.
  eapply merge_loop_trimmed; [exact E | constructor].
Qed.

Lemma create_documents_chunks cfg inputs : forall chunks,
  create_documents cfg inputs = Ok chunks ->
  Forall (fun c => trimmed (page_content c)
                   /\ exists s, In (s, metadata c) inputs) chunks.
Proof.
  induction inputs as [|[s md] rest IH]; intros chunks H; cbn in H.
  - injection H as <-. constructor.
  - destruct (split_text cfg s) as [cs|e] eqn:Es; cbn in H; [|discriminate].
    destruct (create_documents cfg rest) as [more|e] eqn:Er; cbn in H;
      [|discriminate].
    injection H as <-. apply Forall_app; split.
    + apply split_text_trimmed in Es. rewrite Forall_forall in Es.
      apply Forall_forall. intros c Hc.
      apply list_elem_of_fmap in Hc as (t & -> & Ht). cbn.
      split; [now apply Es|]. exists s. now left.
    + eapply Forall_impl; [apply IH; reflexivity|].
      intros c [Hc (s' & Hin)]. split; [exact Hc|]. exists s'. now right.
Qed.

Lemma create_documents_app cfg a : forall b ca cb,
  create_documents cfg a = Ok ca ->
  create_documents cfg b = Ok cb ->
  create_documents cfg (a ++ b) = Ok (ca ++ cb).
Proof.
  induction a as [|[s md] a IH]; intros b ca cb Ha Hb; cbn in *.
  - injection Ha as <-. exact Hb.
  - destruct (split_text cfg s) as [cs|e]; cbn in *; [|discriminate].
    destruct (create_documents cfg a) as [more|e] eqn:Ea; cbn in Ha;
      [|discriminate].
    injection Ha as <-. rewrite (IH b more cb eq_refl Hb). cbn.
    now rewrite app_assoc.
Qed.

Lemma width_app_le sep l k : len (join sep l) <= len (join sep (l ++ k)).
Proof.
  induction k as [|x k IH] using rev_ind; [rewrite app_nil_r; lia|].
  rewrite app_assoc, join_snoc.
  pose proof (len_nonneg x). pose proof (len_nonneg sep).
  unfold sep_if. destruct (0 <? len (l ++ k)); lia.
Qed.

(** Pieces that fit one window together are all collected in it. *)
Lemma merge_loop_fits cfg sep splits : forall st,
  total st = len (join sep (current_doc st)) ->
  len (join sep (current_doc st ++ splits)) <= chunk_size cfg ->
  merge_loop cfg sep st splits
  = Ok {| docs := docs st;
          current_doc := current_doc st ++ splits;
          total := len (join sep (current_doc st ++ splits)) |}.
Proof.
  induction splits as [|d splits IH]; intros st Ht Hfit.
  - cbn. rewrite app_nil_r. destruct st; cbn in *. now subst.
  - cbn [merge_loop]. unfold merge_step.
    assert (Hd : len (join sep (current_doc st ++ [d])) <= chunk_size cfg).
    { etransitivity; [apply (width_app_le sep _ splits)|].
      now rewrite <- app_assoc. }
    rewrite join_snoc in Hd.
    assert ((chunk_size cfg
             <? total st + len d
                + sep_if (0 <? len (current_doc st)) (len sep)) = false) as ->
      by (apply Z.ltb_ge; lia).
    cbn [rbind].
    assert (Hsep : (1 <? len (current_doc st ++ [d]))
                   = (0 <? len (current_doc st))).
    { rewrite len_app. change (len [d]) with 1.
      destruct (0 <? len (current_doc st)) eqn:E1.
      - apply Z.ltb_lt in E1. apply Z.ltb_lt. lia.
      - apply Z.ltb_ge in E1. apply Z.ltb_ge. lia. }
    rewrite IH; cbn [docs current_doc total].
    + now rewrite <- app_assoc.
    + rewrite join_snoc, Hsep. lia.
    + now rewrite <- app_assoc.
Qed.

End TextSplitterChunks.

(** X14.  Every chunk the chunker of [main] returns is a non-empty
    text that neither starts nor ends with white space, and carries the
    metadata of one of the input documents.  (The chunker is the
    library's, embedded as for C4.) *)
Theorem chunks_trimmed_with_provenance (docs chunks : list Document) :
  TextSplitter.split_documents main_splitter docs = Ok chunks ->
  Forall (fun c => trimmed (page_content c)
                   /\ exists d, In d docs /\ metadata c = metadata d) chunks.
Proof.
  unfold TextSplitter.split_documents. intros H.
  apply TextSplitterChunks.create_documents_chunks in H.
  eapply Forall_impl; [exact H|].
  intros c [Hc (s & Hin)]. split; [exact Hc|].
  apply in_map_iff in Hin as (d & [= _ E] & Hd). now exists d.
Qed.

Lemma chunks_trimmed_with_provenance_witness :
  TextSplitter.split_documents main_splitter [sky_and_grass; long_line]
  = Ok [sky_and_grass; long_line]
  /\ Forall (fun c => trimmed (page_content c)
                      /\ exists d, In d [sky_and_grass; long_line]
                                   /\ metadata c = metadata d)
       [sky_and_grass; long_line].
Proof.
  assert (H : TextSplitter.split_documents main_splitter
                [sky_and_grass; long_line] = Ok [sky_and_grass; long_line])
    by (vm_compute; reflexivity).
  split; [exact H|].
  exact (chunks_trimmed_with_provenance _ _ H).
Defined.

(** X15.  A document whose lines, joined by single newlines, have at
    most 1000 characters becomes exactly one chunk, that text with the
    white space at its ends stripped and the document's metadata; when
    nothing but white space is left it becomes no chunk at all.  (The
    chunker is the library's, embedded as for C4.) *)
Theorem small_document_is_one_chunk (d : Document) :
  len (joined_lines d) <= 1000 ->
  TextSplitter.split_documents main_splitter [d]
  = Ok match TextSplitter.strip (joined_lines d) with
       | [] => []
       | x :: t => [{| page_content := x :: t; metadata := metadata d |}]
       end.
Proof.
  intros Hfit. unfold joined_lines in *.
  unfold TextSplitter.split_documents. cbn [map TextSplitter.create_documents].
  unfold TextSplitter.split_text, TextSplitter._merge_splits.
  change (TextSplitter.separator main_splitter) with newline.
  rewrite TextSplitterChunks.merge_loop_fits;
    [|reflexivity | exact Hfit].
  cbn [rbind TextSplitter.docs TextSplitter.current_doc app].
  unfold TextSplitter._join_docs, TextSplitter.append_doc.
  destruct (TextSplitter.strip _); reflexivity.
Qed.

Lemma small_document_is_one_chunk_witness :
  len (joined_lines sky_and_grass) <= 1000
  /\ TextSplitter.split_documents main_splitter [sky_and_grass]
     = Ok [sky_and_grass].
Proof.
  assert (H : len (joined_lines sky_and_grass) <= 1000)
    by (vm_compute; discriminate).
  split; [exact H|].
  rewrite (small_document_is_one_chunk sky_and_grass H). reflexivity.
Defined.

(** X16.  Documents are chunked one by one: the chunks of a sequence of
    documents followed by another are the chunks of the first followed
    by the chunks of the second, so no chunk spans two documents and
    the order of the documents is kept.  (The chunker is the library's,
    embedded as for C4.) *)
Theorem documents_chunked_independently (docs1 docs2 : list Document) :
  exists chunks1 chunks2,
    TextSplitter.split_documents main_splitter docs1 = Ok chunks1
    /\ TextSplitter.split_documents main_splitter docs2 = Ok chunks2
    /\ TextSplitter.split_documents main_splitter (docs1 ++ docs2)
       = Ok (chunks1 ++ chunks2).
Proof.
  destruct (split_documents_main docs1) as (c1 & E1 & _).
  destruct (split_documents_main docs2) as (c2 & E2 & _).
  exists c1, c2. split; [exact E1|]. split; [exact E2|].
  unfold TextSplitter.split_documents in *. rewrite map_app.
  now apply TextSplitterChunks.create_documents_app.
Qed.
